(** * ffmpegfs: destination format and path resolution (src/ffmpeg_utils.cc)

    A shallow embedding of the string/path helpers, the format catalogue,
    the destination-type list scan, the destination name builder, the
    directory tree creation and the mount point test of
    [src/ffmpeg_utils.cc], together with the properties that the
    specification states about them.

    Conventions of the embedding:
    - a [std::string] is a [string] (a sequence of 8-bit characters, which
      may contain NUL); [c_str] gives what a C function sees of it;
    - a function that updates a [std::string *] in place and returns a
      reference to it becomes a function returning the new string;
    - a call that may throw or whose behaviour the C++ standard leaves
      undefined returns a [res]: [Ret v] for a normal return, [Fault f]
      otherwise;
    - [size_t] positions are [nat]; [std::string::npos] is [None]. *)

From stdpp Require Import base option list strings gmap.
From Stdlib Require Import ZArith Ascii Lia DecimalString.

(** ** Outcomes of a call *)

Inductive fault : Set :=
  | out_of_range          (* std::out_of_range thrown by the library *)
  | undefined_behaviour.  (* precondition of a library call violated *)

Inductive res (A : Type) : Type :=
  | Ret (a : A)
  | Fault (f : fault).
Arguments Ret {A} a.
Arguments Fault {A} f.

Definition res_bind {A B} (m : res A) (k : A → res B) : res B :=
  match m with
  | Ret a => k a
  | Fault f => Fault f
  end.

Notation "'do' x <- m ; k" := (res_bind m (λ x, k))
  (at level 10, x name, m at level 100, k at level 200).

Definition returns {A} (m : res A) : Prop := ∃ a, m = Ret a.

(** ** std::string primitives *)

Module StdString.

Definition NUL : ascii := Ascii.zero.

(** [s.c_str()] as read by a C function: the characters before the first
    NUL. *)
Fixpoint c_str (s : string) : string :=
  match s with
  | EmptyString => EmptyString
  | String a s' => if Ascii.eqb a NUL then EmptyString else String a (c_str s')
  end.

(** [s.size()] *)
Definition size (s : string) : nat := String.length s.

(** [s.back()]: the last character; calling it on an empty string is
    undefined behaviour. *)
Fixpoint back (s : string) : res ascii :=
  match s with
  | EmptyString => Fault undefined_behaviour
  | String a EmptyString => Ret a
  | String _ s' => back s'
  end.

(** [s.rfind(c)]: position of the last occurrence of [c], [None] for
    [npos]. *)
Fixpoint rfind (s : string) (c : ascii) : option nat :=
  match s with
  | EmptyString => None
  | String a s' =>
      match rfind s' c with
      | Some i => Some (S i)
      | None => if Ascii.eqb a c then Some 0 else None
      end
  end.

Fixpoint drop (n : nat) (s : string) : string :=
  match n, s with
  | O, _ => s
  | S n', String _ s' => drop n' s'
  | S _, EmptyString => EmptyString
  end.

Fixpoint take (n : nat) (s : string) : string :=
  match n, s with
  | S n', String a s' => String a (take n' s')
  | _, _ => EmptyString
  end.

(** [s.substr(pos, len)]; [len = None] is the default [npos].  Throws
    [std::out_of_range] when [pos > size()]; the length is clipped to
    the end of the string. *)
Definition substr (s : string) (pos : nat) (len : option nat) : res string :=
  if decide (size s < pos)%nat then Fault out_of_range
  else Ret (match len with
            | Some n => take n (drop pos s)
            | None => drop pos s
            end).

(** Whether [c] occurs in [s]. *)
Fixpoint contains (s : string) (c : ascii) : bool :=
  match s with
  | EmptyString => false
  | String a s' => Ascii.eqb a c || contains s' c
  end.

(** [s += c] *)
Definition push_back (s : string) (c : ascii) : string :=
  s +:+ String c EmptyString.

End StdString.
Import StdString.

(** ** StringPathOps *)

(** [append_sep]: add a '/' to the path if required. *)
Definition append_sep (path : string) : res string :=
  do b <- back path;
  if negb (Ascii.eqb b "/"%char) then Ret (push_back path "/"%char)
  else Ret path.

(** [append_filename]: add filename to path, adding a '/' if required. *)
Definition append_filename (path filename : string) : res string :=
  do path <- append_sep path;
  Ret (path +:+ filename).

(** [find_ext]: the flag tells whether an extension was found, the string
    is the new value of [*ext]. *)
Definition find_ext (filename : string) : res (bool * string) :=
  match rfind filename "."%char with
  | None => Ret (false, EmptyString)
  | Some found =>
      do ext <- substr filename (found + 1) None;
      Ret (true, ext)
  end.

(** [replace_ext]: replace the extension of the filename, or add one. *)
Definition replace_ext (filename ext : string) : res string :=
  do filename <-
    match rfind filename "."%char with
    | None => Ret (push_back filename "."%char)
    | Some found => substr filename 0 (Some (found + 1)%nat)
    end;
  Ret (filename +:+ ext).

(** ** The C library calls made by the code

    [basename] and [dirname] are the POSIX functions of <libgen.h> (the
    header is included, so [basename] is the XPG one); [strcasecmp] and
    [strtok] those of <strings.h> and <string.h>.  They work on C strings:
    callers pass [c_str]. *)

Module Libc.

Definition is_slash (a : ascii) : bool := Ascii.eqb a "/"%char.

(** Remove the '/' characters that end the string. *)
Fixpoint strip_trailing_slashes (s : string) : string :=
  match s with
  | EmptyString => EmptyString
  | String a s' =>
      match strip_trailing_slashes s' with
      | EmptyString => if is_slash a then EmptyString else String a EmptyString
      | t => String a t
      end
  end.

(** The characters after the last '/' (the whole string when it has
    none). *)
Fixpoint after_last_slash (s : string) : string :=
  match s with
  | EmptyString => EmptyString
  | String a s' =>
      match rfind s' "/"%char with
      | Some _ => after_last_slash s'
      | None => if is_slash a then s' else s
      end
  end.

(** [basename(path)]: "." for the empty string, "/" for a string of
    slashes only, otherwise the last component, trailing slashes
    removed. *)
Definition basename (path : string) : string :=
  match path with
  | EmptyString => "."
  | _ =>
      match strip_trailing_slashes path with
      | EmptyString => "/"
      | p => after_last_slash p
      end
  end.

(** [dirname(path)]: "." when the path has no directory part, otherwise
    the path up to, and without, the slashes that precede its last
    component; a path whose directory part is the root gives "/" (and
    "//" when the path starts with exactly two slashes and that is all
    of the directory part, as glibc does). *)
Definition dirname (path : string) : string :=
  let p := strip_trailing_slashes path in
  match p, path with
  | EmptyString, EmptyString => "."
  | EmptyString, String _ EmptyString => "/"
  | EmptyString, String _ (String _ EmptyString) => "//"
  | EmptyString, _ => "/"
  | _, _ =>
      match rfind p "/"%char with
      | None => "."
      | Some last_slash =>
          match strip_trailing_slashes (take last_slash p) with
          | EmptyString => if Nat.eqb last_slash 1 then "//" else "/"
          | d => d
          end
      end
  end.

(** [tolower] in the C locale, on the character code. *)
Definition tolower (a : ascii) : Z :=
  let n := Z.of_nat (nat_of_ascii a) in
  if ((65 <=? n) && (n <=? 90))%Z then (n + 32)%Z else n.

(** [strcasecmp(s1, s2)]: the difference of the first two characters
    that differ once lowered, 0 when there are none; the end of a string
    counts as the character 0. *)
Fixpoint strcasecmp (s1 s2 : string) : Z :=
  match s1, s2 with
  | EmptyString, EmptyString => 0
  | EmptyString, String b _ => (0 - tolower b)%Z
  | String a _, EmptyString => (tolower a - 0)%Z
  | String a s1', String b s2' =>
      if (tolower a =? tolower b)%Z then strcasecmp s1' s2'
      else (tolower a - tolower b)%Z
  end.

(** The successive results of [strtok(s, "/")], [strtok(nullptr, "/")],
    ...: the maximal runs of characters other than '/'. *)
Fixpoint strtok_slash (s : string) : list string :=
  match s with
  | EmptyString => []
  | String a s' =>
      let rest := strtok_slash s' in
      if is_slash a then rest
      else match s' with
           | EmptyString => [String a EmptyString]
           | String b _ =>
               if is_slash b then String a EmptyString :: rest
               else match rest with
                    | t :: ts => String a t :: ts
                    | [] => [String a EmptyString]
                    end
           end
  end.

End Libc.
Import Libc.

(** ** FormatCatalog *)

(** The [FILETYPE] enumeration (ffmpeg_utils.h), as the code uses it. *)
Inductive FILETYPE : Set :=
  | FILETYPE_UNKNOWN
  | FILETYPE_MP3
  | FILETYPE_MP4
  | FILETYPE_WAV
  | FILETYPE_OGG
  | FILETYPE_WEBM
  | FILETYPE_MOV
  | FILETYPE_AIFF
  | FILETYPE_OPUS
  | FILETYPE_PRORES.

Global Instance FILETYPE_eq_dec : EqDecision FILETYPE.
Proof. solve_decision. Defined.

(** The FFmpeg codec ids that the code names. *)
Inductive AVCodecID : Set :=
  | AV_CODEC_ID_NONE
  | AV_CODEC_ID_MP3
  | AV_CODEC_ID_AAC
  | AV_CODEC_ID_H264
  | AV_CODEC_ID_PCM_S16LE
  | AV_CODEC_ID_PCM_S16BE
  | AV_CODEC_ID_VORBIS
  | AV_CODEC_ID_THEORA
  | AV_CODEC_ID_OPUS
  | AV_CODEC_ID_VP9
  | AV_CODEC_ID_PRORES
  | AV_CODEC_ID_MJPEG
  | AV_CODEC_ID_PNG
  | AV_CODEC_ID_BMP.

Global Instance AVCodecID_eq_dec : EqDecision AVCodecID.
Proof. solve_decision. Defined.

(** [struct ffmpegfs_format] (ffmpegfs.h): the members that [get_codecs]
    assigns. *)
Record ffmpegfs_format : Set := mk_format {
  m_desttype : string;
  m_audio_codec_id : AVCodecID;
  m_video_codec_id : AVCodecID;
  m_filetype : FILETYPE;
  m_format_name : string
}.

(** The [std::string] overload of [strcasecmp]. *)
Definition strcasecmp (s1 s2 : string) : Z :=
  Libc.strcasecmp (c_str s1) (c_str s2).

(** [!strcasecmp(desttype, lit)] *)
Definition is_type (desttype lit : string) : bool :=
  (strcasecmp desttype lit =? 0)%Z.

Definition get_filetype (desttype : string) : FILETYPE :=
  if is_type desttype "mp3" then FILETYPE_MP3
  else if is_type desttype "mp4" then FILETYPE_MP4
  else if is_type desttype "wav" then FILETYPE_WAV
  else if is_type desttype "ogg" then FILETYPE_OGG
  else if is_type desttype "webm" then FILETYPE_WEBM
  else if is_type desttype "mov" then FILETYPE_MOV
  else if is_type desttype "aiff" then FILETYPE_AIFF
  else if is_type desttype "opus" then FILETYPE_OPUS
  else if is_type desttype "prores" then FILETYPE_PRORES
  else FILETYPE_UNKNOWN.

(** The pieces of [s] between the occurrences of [sep]: one more than
    there are separators. *)
Fixpoint fields (sep : ascii) (s : string) : list string :=
  match s with
  | EmptyString => [EmptyString]
  | String a s' =>
      if Ascii.eqb a sep then EmptyString :: fields sep s'
      else match fields sep s' with
           | f :: fs => String a f :: fs
           | [] => [String a EmptyString]
           end
  end.

(** [split(input, regex)] for a regex that is one literal character (the
    code only passes ","): the tokens of a [std::sregex_token_iterator]
    with submatch -1.  They are the pieces before each match and the piece
    after the last match unless that one is empty; without any match the
    whole input is the only token. *)
Definition split (input : string) (sep : ascii) : list string :=
  match fields sep input with
  | [whole] => [whole]
  | fs => match last fs with
          | Some EmptyString => removelast fs
          | _ => fs
          end
  end.

(** ** FormatResolver *)

(** The loop of [get_filetype_from_list], from index [n] on: [rest] is
    [desttype[n..]]; the condition [n < desttype.size() && filetype !=
    FILETYPE_UNKNOWN] is tested before each round. *)
Fixpoint get_filetype_loop (rest : list string) (filetype : FILETYPE) : FILETYPE :=
  match rest with
  | [] => filetype
  | desttype_n :: rest' =>
      if bool_decide (filetype ≠ FILETYPE_UNKNOWN)
      then get_filetype_loop rest' (get_filetype desttype_n)
      else filetype
  end.

Definition get_filetype_from_list (desttypelist : string) : FILETYPE :=
  let desttype := split desttypelist ","%char in
  let filetype := FILETYPE_UNKNOWN in
  get_filetype_loop desttype filetype.

(** The resolution as the specification words it: the lookup result of the
    first token, in order, that is not [FILETYPE_UNKNOWN]; unknown when
    every token misses. *)
Fixpoint first_known (tokens : list string) : FILETYPE :=
  match tokens with
  | [] => FILETYPE_UNKNOWN
  | t :: ts =>
      match get_filetype t with
      | FILETYPE_UNKNOWN => first_known ts
      | ft => ft
      end
  end.

Definition resolve_spec (type_list_csv : string) : FILETYPE :=
  first_known (split type_list_csv ","%char).

(** [get_codecs]: the status and the new value of [*format]. *)
Definition get_codecs (desttype : string) (format : ffmpegfs_format)
  : Z * ffmpegfs_format :=
  let ret := (-1)%Z in
  match get_filetype desttype with
  | FILETYPE_MP3 =>
      (ret, mk_format desttype AV_CODEC_ID_MP3 AV_CODEC_ID_NONE FILETYPE_MP3 "mp3")
  | FILETYPE_MP4 =>
      (ret, mk_format desttype AV_CODEC_ID_AAC AV_CODEC_ID_H264 FILETYPE_MP4 "mp4")
  | FILETYPE_WAV =>
      (ret, mk_format desttype AV_CODEC_ID_PCM_S16LE AV_CODEC_ID_NONE FILETYPE_WAV "wav")
  | FILETYPE_OGG =>
      (ret, mk_format desttype AV_CODEC_ID_VORBIS AV_CODEC_ID_THEORA FILETYPE_OGG "ogg")
  | FILETYPE_WEBM =>
      (ret, mk_format desttype AV_CODEC_ID_OPUS AV_CODEC_ID_VP9 FILETYPE_WEBM "webm")
  | FILETYPE_MOV =>
      (ret, mk_format desttype AV_CODEC_ID_AAC AV_CODEC_ID_H264 FILETYPE_MOV "mov")
  | FILETYPE_AIFF =>
      (ret, mk_format desttype AV_CODEC_ID_PCM_S16BE AV_CODEC_ID_NONE FILETYPE_AIFF "aiff")
  | FILETYPE_OPUS =>
      (ret, mk_format desttype AV_CODEC_ID_OPUS AV_CODEC_ID_NONE FILETYPE_OPUS "opus")
  | FILETYPE_PRORES =>
      (ret, mk_format desttype AV_CODEC_ID_PCM_S16LE AV_CODEC_ID_PRORES FILETYPE_PRORES "mov")
  | FILETYPE_UNKNOWN =>
      (0%Z, format)
  end.

(** The token under which [get_filetype] recognises each type. *)
Definition canonical_token (ft : FILETYPE) : string :=
  match ft with
  | FILETYPE_UNKNOWN => ""
  | FILETYPE_MP3 => "mp3"
  | FILETYPE_MP4 => "mp4"
  | FILETYPE_WAV => "wav"
  | FILETYPE_OGG => "ogg"
  | FILETYPE_WEBM => "webm"
  | FILETYPE_MOV => "mov"
  | FILETYPE_AIFF => "aiff"
  | FILETYPE_OPUS => "opus"
  | FILETYPE_PRORES => "prores"
  end.

(** A format structure before any assignment. *)
Definition blank_format : ffmpegfs_format :=
  mk_format "" AV_CODEC_ID_NONE AV_CODEC_ID_NONE FILETYPE_UNKNOWN "".

(** The format that [get_codecs] fills in for "mp3". *)
Definition mp3_format : ffmpegfs_format := (get_codecs "mp3" blank_format).2.

(** ** PathResolver *)

(** The members of the global [params] (ffmpegfs.h) that [get_destname]
    reads: the mount path and the format chosen for a file. *)
Record ffmpegfs_params : Type := mk_params {
  m_mountpath : string;
  current_format : string → ffmpegfs_format
}.

(** [new_strdup]: a NUL-terminated copy of the string, read back as a C
    string. *)
Definition new_strdup (str : string) : string := c_str str.

(** [remove_path]: remove path from filename. *)
Definition remove_path (path : string) : string :=
  basename (new_strdup path).

(** [remove_filename]: remove filename from path. *)
Definition remove_filename (path : string) : res string :=
  append_sep (dirname (new_strdup path)).

Definition get_destname (params : ffmpegfs_params) (filename : string) : res string :=
  let destname := filename in
  let destname := remove_path destname in
  do destname <- replace_ext destname (m_format_name (current_format params filename));
  Ret (m_mountpath params +:+ destname).

(** ** FsSafetyOps *)

Module Posix.

Definition ENOENT : Z := 2.
Definition EEXIST : Z := 17.
Definition PATH_MAX : nat := 4096.
Definition S_IFDIR : Z := 16384.   (* 0040000 *)
Definition S_IFREG : Z := 32768.   (* 0100000 *)

(** What [mktree] can observe of the system: the directories that exist
    besides the root, and [errno]. *)
Record world : Type := mk_world {
  dirs : gset string;
  errno : Z
}.

Definition set_errno (e : Z) (w : world) : world := mk_world (dirs w) e.

Definition dir_exists (w : world) (path : string) : bool :=
  bool_decide (path = "/") || bool_decide (path ∈ dirs w).

(** [mkdir(path, mode)]: fails with [EEXIST] when the path exists, with
    [ENOENT] when its parent directory does not; otherwise creates the
    directory.  Permissions are not part of the model. *)
Definition mkdir (w : world) (path : string) (mode : Z) : world * Z :=
  if dir_exists w path then (set_errno EEXIST w, (-1)%Z)
  else if dir_exists w (dirname path) then (mk_world ({[path]} ∪ dirs w) (errno w), 0%Z)
  else (set_errno ENOENT w, (-1)%Z).

(** [strcat(dest, src)] into a buffer of [cap] characters: writing past
    the buffer is undefined behaviour. *)
Definition strcat (cap : nat) (dest src : string) : res string :=
  if decide (String.length dest + String.length src + 1 ≤ cap)%nat
  then Ret (dest +:+ src)
  else Fault undefined_behaviour.

(** [struct stat]: the members that [is_mount] reads. *)
Record stat_t : Set := mk_stat {
  st_dev : Z;
  st_ino : Z;
  st_mode : Z
}.

End Posix.
Import Posix.

(** The [while (p != nullptr)] loop of [mktree]: [toks] are the tokens
    that [strtok] has still to deliver, the first one being [p].  A
    [break] leaves the loop with the status it has set. *)
Fixpoint mktree_loop (mode : Z) (toks : list string) (dir : string) (status : Z)
    (w : world) : world * res Z :=
  match toks with
  | [] => (w, Ret status)
  | p :: toks' =>
      match (do d <- strcat PATH_MAX dir "/"; strcat PATH_MAX d p) with
      | Fault f => (w, Fault f)
      | Ret dir =>
          let w := set_errno 0 w in
          let '(w, newstat) := mkdir w dir mode in
          if (status =? 0)%Z && negb (newstat =? 0)%Z && negb (errno w =? EEXIST)%Z
          then (w, Ret (-1)%Z)
          else mktree_loop mode toks' dir newstat w
      end
  end.

Definition mktree (filename : string) (mode : Z) (w : world) : world * res Z :=
  let path := new_strdup filename in
  let dir := "" in
  let status := 0%Z in
  mktree_loop mode (strtok_slash path) dir status w.

(** The body of the [try] block of [is_mount]: [inl r] when it runs to
    its end having set [ret] to [r], [inr e] when it throws [e]. *)
Definition is_mount_try (stat : string → option stat_t) (filename : string) : Z + Z :=
  let orig_name := new_strdup filename in
  let parent_name := dirname orig_name in
  match stat (c_str filename) with
  | None => inr (-1)%Z
  | Some file_stat =>
      if (Z.land (st_mode file_stat) S_IFDIR =? 0)%Z then inr (-1)%Z
      else
        match stat parent_name with
        | None => inr (-1)%Z
        | Some parent_stat =>
            if negb (st_dev file_stat =? st_dev parent_stat)%Z
               || ((st_dev file_stat =? st_dev parent_stat)%Z
                   && (st_ino file_stat =? st_ino parent_stat)%Z)
            then inl 1%Z
            else inl 0%Z
        end
  end.

(** [is_mount]: [stat] is the system call, [None] standing for its result
    -1. *)
Definition is_mount (stat : string → option stat_t) (filename : string) : Z :=
  match is_mount_try stat filename with
  | inl ret => ret
  | inr _ret => _ret
  end.

Definition empty_world : world := mk_world ∅ 0.

(** A file system to try [is_mount] on: the root device 2049 with a home
    directory and a regular file in it, and a second device 2065 mounted
    on /mnt/media.  The modes are octal 0755 for the directories and 0644
    for the file. *)
Definition example_fs : gmap string stat_t :=
  list_to_map
    [ ("/",                 mk_stat 2049 2  (S_IFDIR + 493));
      ("/home",             mk_stat 2049 5  (S_IFDIR + 493));
      ("/home/u",           mk_stat 2049 7  (S_IFDIR + 493));
      ("/home/u/song.flac", mk_stat 2049 42 (S_IFREG + 420));
      ("/mnt",              mk_stat 2049 11 (S_IFDIR + 493));
      ("/mnt/media",        mk_stat 2065 2  (S_IFDIR + 493)) ].

Definition example_stat (path : string) : option stat_t := example_fs !! path.

(** ** Further definitions used to state properties *)

(** The character codes of a string after [tolower]: what [strcasecmp]
    compares. *)
Fixpoint lowered (s : string) : list Z :=
  match s with
  | EmptyString => []
  | String a s' => tolower a :: lowered s'
  end.

(** The tokens put together again with the separator between them. *)
Fixpoint join (sep : ascii) (tokens : list string) : string :=
  match tokens with
  | [] => ""
  | [t] => t
  | t :: ts => t +:+ String sep (join sep ts)
  end.

(** The successive values of [dir] in the loop of [mktree]: the
    directories that it hands to [mkdir]. *)
Fixpoint mktree_dirs (toks : list string) (dir : string) : list string :=
  match toks with
  | [] => []
  | p :: toks' => (dir +:+ "/" +:+ p) :: mktree_dirs toks' (dir +:+ "/" +:+ p)
  end.

(** A string of [n] times the character [a]. *)
Fixpoint replicate_char (n : nat) (a : ascii) : string :=
  match n with
  | O => ""
  | S n' => String a (replicate_char n' a)
  end.

(** A component as [strtok] delivers it: not empty, without '/'. *)
Definition clean_token (t : string) : Prop := t ≠ "" ∧ contains t "/" = false.

(** A value of [dir] in the loop of [mktree]: empty, or ending in a
    component. *)
Definition clean_dir (dir : string) : Prop :=
  dir = "" ∨ ∃ x q, dir = x +:+ q ∧ clean_token q.

(** The directory name, with its final NUL, fits [char dir[PATH_MAX]]. *)
Definition fits_buffer (d : string) : Prop := (String.length d < PATH_MAX)%nat.

(** ** Generic string helpers *)

(** [std::isspace] in the C locale: space, and the control characters
    from horizontal tab (9) to carriage return (13).  The code passes a
    [char]; glibc's table also covers the negative values that a signed
    [char] above 127 gives, none of which is white space. *)
Definition isspace (a : ascii) : bool :=
  let n := nat_of_ascii a in
  ((9 <=? n)%nat && (n <=? 13)%nat) || (n =? 32)%nat.

(** [ltrim]: erase from the start up to the first character that is not
    white space. *)
Fixpoint ltrim (s : string) : string :=
  match s with
  | EmptyString => EmptyString
  | String a s' => if isspace a then ltrim s' else s
  end.

(** [rtrim]: erase from behind the last character that is not white
    space up to the end. *)
Fixpoint rtrim (s : string) : string :=
  match s with
  | EmptyString => EmptyString
  | String a s' =>
      match rtrim s' with
      | EmptyString => if isspace a then EmptyString else String a EmptyString
      | t => String a t
      end
  end.

(** [trim]: trim from both ends. *)
Definition trim (s : string) : string := ltrim (rtrim s).

(** Whether a string is made of white space only. *)
Fixpoint all_space (s : string) : bool :=
  match s with
  | EmptyString => true
  | String a s' => isspace a && all_space s'
  end.

Module StdStringEdit.

(** Whether [from] stands at the start of [s]. *)
Fixpoint starts_with (s from : string) : bool :=
  match from, s with
  | EmptyString, _ => true
  | String b from', String a s' => Ascii.eqb a b && starts_with s' from'
  | String _ _, EmptyString => false
  end.

(** The position of the first occurrence of [from] in [s]. *)
Fixpoint find_first (s from : string) : option nat :=
  if starts_with s from then Some 0%nat
  else match s with
       | EmptyString => None
       | String _ s' => S <$> find_first s' from
       end.

(** [s.find(from, pos)]: the lowest position not below [pos] at which
    [from] occurs in [s], [None] for [npos]. *)
Definition find (s from : string) (pos : nat) : option nat :=
  if decide (pos ≤ size s)%nat
  then (λ i, (pos + i)%nat) <$> find_first (drop pos s) from
  else None.

(** [s.replace(pos, len, to)]: the [len] characters from [pos] on (or
    those that are left) are replaced by [to]; throws [std::out_of_range]
    when [pos > size()]. *)
Definition replace (s : string) (pos len : nat) (to : string) : res string :=
  if decide (size s < pos)%nat then Fault out_of_range
  else Ret (take pos s +:+ to +:+ drop (pos + len) s).

End StdStringEdit.

(** The [while] loop of [replace_all], with [fuel] bounding the number of
    rounds: [None] when the loop is still running after [fuel] rounds. *)
Fixpoint replace_all_loop (fuel : nat) (str from to : string) (start_pos : nat)
  : option (res string) :=
  match fuel with
  | O => None
  | S fuel' =>
      match StdStringEdit.find str from start_pos with
      | None => Some (Ret str)
      | Some start_pos =>
          match StdStringEdit.replace str start_pos (String.length from) to with
          | Fault f => Some (Fault f)
          | Ret str =>
              replace_all_loop fuel' str from to (start_pos + String.length to)
          end
      end
  end.

Definition replace_all (fuel : nat) (str from to : string) : option (res string) :=
  let start_pos := 0%nat in
  replace_all_loop fuel str from to start_pos.

(** Every occurrence of the character [c] replaced by [to], the other
    characters kept: what [replace_all] is meant to compute for a pattern
    of one character. *)
Fixpoint substitute (c : ascii) (to : string) (s : string) : string :=
  match s with
  | EmptyString => EmptyString
  | String a s' =>
      if Ascii.eqb a c then to +:+ substitute c to s'
      else String a (substitute c to s')
  end.

(** ** Formatting a time span *)

(** [AV_NOPTS_VALUE] (libavutil): the 64-bit pattern 0x8000000000000000
    read as a signed number. *)
Definition AV_NOPTS_VALUE : Z := (-9223372036854775808)%Z.

Definition INT_MIN : Z := (-2147483648)%Z.
Definition INT_MAX : Z := 2147483647%Z.
Definition INT64_MIN : Z := (-9223372036854775808)%Z.
Definition INT64_MAX : Z := 9223372036854775807%Z.

(** [static_cast<int>(z)] of a 64-bit value: the value itself when it is
    an [int], reduced modulo 2^32 otherwise (as gcc defines it). *)
Definition to_int (z : Z) : Z :=
  ((z - INT_MIN) mod 4294967296 + INT_MIN)%Z.

(** The product of two [int]s: signed overflow is undefined behaviour. *)
Definition int_mul (a b : Z) : res Z :=
  if ((INT_MIN <=? a * b) && (a * b <=? INT_MAX))%Z then Ret (a * b)%Z
  else Fault undefined_behaviour.

(** [value -= p] on a [time_t] (64 bits, signed). *)
Definition time_sub (value p : Z) : res Z :=
  if ((INT64_MIN <=? value - p) && (value - p <=? INT64_MAX))%Z then Ret (value - p)%Z
  else Fault undefined_behaviour.

(** What [printf] writes for [%i]. *)
Definition print_int (n : Z) : string :=
  DecimalString.NilZero.string_of_int (Z.to_int n).

(** [string_format("%i<unit> ", n)] *)
Definition format_unit (n : Z) (unit : string) : string :=
  print_int n +:+ unit +:+ " ".

(** The second half of [format_time]: the parts that are not 0, each with
    its unit. *)
Definition format_time_buffer (weeks days hours mins secs : Z) : string :=
  let buffer := "" in
  let buffer := if (weeks =? 0)%Z then buffer else format_unit weeks "w" in
  let buffer := if (days =? 0)%Z then buffer else buffer +:+ format_unit days "d" in
  let buffer := if (hours =? 0)%Z then buffer else buffer +:+ format_unit hours "h" in
  let buffer := if (mins =? 0)%Z then buffer else buffer +:+ format_unit mins "m" in
  let buffer := if (secs =? 0)%Z then buffer else buffer +:+ format_unit secs "s" in
  buffer.

(** [format_time], for a [time_t] of 64 bits. *)
Definition format_time (value : Z) : res string :=
  if (value =? 0)%Z then Ret "unlimited"
  else if (value =? AV_NOPTS_VALUE)%Z then Ret "unset"
  else
    let weeks := to_int (value ÷ (60*60*24*7)) in
    do p <- int_mul weeks (60*60*24*7);
    do value <- time_sub value p;
    let days := to_int (value ÷ (60*60*24)) in
    do p <- int_mul days (60*60*24);
    do value <- time_sub value p;
    let hours := to_int (value ÷ (60*60)) in
    do p <- int_mul hours (60*60);
    do value <- time_sub value p;
    let mins := to_int (value ÷ 60) in
    do p <- int_mul mins 60;
    do value <- time_sub value p;
    let secs := to_int value in
    Ret (format_time_buffer weeks days hours mins secs).

(** The file type bits of [st_mode] (<sys/stat.h>): the mask, and the
    types block device and socket, whose codes contain the bit of
    [S_IFDIR]. *)
Definition S_IFMT : Z := 61440.     (* 0170000 *)
Definition S_IFBLK : Z := 24576.    (* 0060000 *)
Definition S_IFSOCK : Z := 49152.   (* 0140000 *)

(** * Properties *)

(** ** The definitions on concrete inputs *)

Example replace_ext_archive : replace_ext "archive" "mp3" = Ret "archive.mp3".
Proof. reflexivity. Qed.

Example find_ext_track : find_ext "track.flac" = Ret (true, "flac").
Proof. reflexivity. Qed.

Example append_sep_empty : append_sep "" = Fault undefined_behaviour.
Proof. reflexivity. Qed.

Example basename_track : basename "/src/music/track.flac" = "track.flac".
Proof. reflexivity. Qed.

Example basename_trailing : basename "/src/music//" = "music".
Proof. reflexivity. Qed.

Example basename_root : basename "///" = "/".
Proof. reflexivity. Qed.

Example basename_plain : basename "archive" = "archive".
Proof. reflexivity. Qed.

Example dirname_examples :
  map dirname ["/usr/lib"; "/usr/"; "usr"; "/"; "."; ".."; ""; "//"; "///"; "//usr"; "a//b//"; "/a"; "abc/"]
  = ["/usr"; "/"; "."; "/"; "."; "."; "."; "//"; "/"; "//"; "a"; "/"; "."].
Proof. reflexivity. Qed.

Example strtok_examples :
  map strtok_slash ["/a/b/c"; "a//bc/"; ""; "///"; "abc"]
  = [["a"; "b"; "c"]; ["a"; "bc"]; []; []; ["abc"]].
Proof. reflexivity. Qed.

Example strcasecmp_examples :
  (strcasecmp "MP3" "mp3", strcasecmp "mp" "mp3", strcasecmp "mp4" "mp3") = (0, -51, 1)%Z.
Proof. reflexivity. Qed.

Example split_examples :
  map (λ s, split s ","%char) ["xyz,mp3,mp4"; "mp3"; ""; "a,"; ",a"; "a,,b"; "a,,"; ","]
  = [["xyz"; "mp3"; "mp4"]; ["mp3"]; [""]; ["a"]; [""; "a"]; ["a"; ""; "b"]; ["a"; ""]; [""]].
Proof. reflexivity. Qed.

Example get_filetype_examples :
  map get_filetype ["mp3"; "MP3"; "Mp4"; "xyz"; ""; "mp"; "mp33"; "prores"]
  = [FILETYPE_MP3; FILETYPE_MP3; FILETYPE_MP4; FILETYPE_UNKNOWN; FILETYPE_UNKNOWN;
     FILETYPE_UNKNOWN; FILETYPE_UNKNOWN; FILETYPE_PRORES].
Proof. reflexivity. Qed.

Example resolve_spec_example : resolve_spec "xyz,mp3,mp4" = FILETYPE_MP3.
Proof. reflexivity. Qed.

Example mktree_abc :
  let '(w1, r1) := mktree "/a/b/c" 493 empty_world in
  let '(w2, r2) := mktree "/a/b/c" 493 w1 in
  (r1, bool_decide (dirs w1 = {["/a"; "/a/b"; "/a/b/c"]}), r2, errno w2)
  = (Ret 0%Z, true, Ret (-1)%Z, EEXIST).
Proof. vm_compute. reflexivity. Qed.

(** ** Facts about the string primitives *)

Section string_facts.
Implicit Types (s t : string) (c : ascii) (i n : nat).
Local Arguments String.append : simpl nomatch.

Lemma append_nil_r s : s +:+ "" = s.
Proof. induction s as [|a s IH]; simpl; [done | by rewrite IH]. Qed.

Lemma append_assoc s t u : (s +:+ t) +:+ u = s +:+ (t +:+ u).
Proof. induction s as [|a s IH]; simpl; [done | by rewrite IH]. Qed.

Lemma length_append s t : String.length (s +:+ t) = (String.length s + String.length t)%nat.
Proof. induction s as [|a s IH]; simpl; [done | by rewrite IH]. Qed.

Lemma push_back_cons a s c : push_back (String a s) c = String a (push_back s c).
Proof. done. Qed.

Lemma take_app_length s t : take (String.length s) (s +:+ t) = s.
Proof. induction s as [|a s IH]; simpl; [by destruct t | by rewrite IH]. Qed.

Lemma take_app_length_plus s t n :
  take (String.length s + n) (s +:+ t) = s +:+ take n t.
Proof. induction s as [|a s IH]; simpl; [done | by rewrite IH]. Qed.

Lemma drop_app_length_plus s t n :
  drop (String.length s + n) (s +:+ t) = drop n t.
Proof. induction s as [|a s IH]; simpl; done. Qed.

Lemma take_drop s n : take n s +:+ drop n s = s.
Proof.
  revert n; induction s as [|a s IH]; intros [|n]; simpl; try done.
  by rewrite IH.
Qed.

Lemma length_take_le s n : (n ≤ String.length s)%nat → String.length (take n s) = n.
Proof.
  revert n; induction s as [|a s IH]; intros [|n] Hn; simpl in *; try done; try lia.
  rewrite IH; lia.
Qed.

Lemma contains_cons a s c : contains (String a s) c = Ascii.eqb a c || contains s c.
Proof. done. Qed.

Lemma contains_app s t c : contains (s +:+ t) c = contains s c || contains t c.
Proof.
  induction s as [|a s IH]; simpl; [done |].
  rewrite IH. by destruct (Ascii.eqb a c).
Qed.

Lemma rfind_None s c : rfind s c = None ↔ contains s c = false.
Proof.
  induction s as [|a s IH]; simpl; [done |].
  destruct (rfind s c) as [i|] eqn:Hr.
  - split; [done |]. intros [_ H]%orb_false_iff.
    apply IH in H. done.
  - destruct IH as [IH _]. rewrite IH by done.
    destruct (Ascii.eqb a c); simpl; split; done.
Qed.

Lemma rfind_lt s c i : rfind s c = Some i → (i < String.length s)%nat.
Proof.
  revert i; induction s as [|a s IH]; intros i; simpl; [done |].
  destruct (rfind s c) as [j|].
  - intros [= <-]. specialize (IH j eq_refl). lia.
  - destruct (Ascii.eqb a c); [intros [= <-]; lia | done].
Qed.

Lemma rfind_app s t c :
  rfind (s +:+ t) c =
    match rfind t c with
    | Some i => Some (String.length s + i)%nat
    | None => rfind s c
    end.
Proof.
  induction s as [|a s IH]; simpl.
  - by destruct (rfind t c).
  - rewrite IH. by destruct (rfind t c).
Qed.

(** The string around the position that [rfind] returns. *)
Lemma rfind_Some s c i :
  rfind s c = Some i →
  s = take i s +:+ String c (drop (S i) s) ∧ contains (drop (S i) s) c = false.
Proof.
  revert i; induction s as [|a s IH]; intros i; simpl; [done |].
  destruct (rfind s c) as [j|] eqn:Hr.
  - intros [= <-]. destruct (IH j eq_refl) as [Hs Hc]. split; [|exact Hc].
    change (String a s = String a (take j s +:+ String c (drop (S j) s))).
    by f_equal.
  - destruct (Ascii.eqb a c) eqn:Hac; [|done].
    intros [= <-]. apply Ascii.eqb_eq in Hac as ->. simpl.
    split; [done | by apply rfind_None].
Qed.

Lemma rfind_last_occurrence s t c :
  contains t c = false → rfind (s +:+ String c t) c = Some (String.length s).
Proof.
  intros Ht. rewrite rfind_app. simpl.
  apply rfind_None in Ht. rewrite Ht, Ascii.eqb_refl.
  f_equal. lia.
Qed.

Lemma substr_from_start s n : substr s 0 (Some n) = Ret (take n s).
Proof. unfold substr. destruct (decide _) as [H|_]; [lia | done]. Qed.

Lemma substr_to_end s pos :
  (pos ≤ String.length s)%nat → substr s pos None = Ret (drop pos s).
Proof. intros H. unfold substr, size. destruct (decide _) as [?|_]; [lia | done]. Qed.

End string_facts.

(** ** Extension replacement and detection *)

Section extensions.
Implicit Types (f e pre suf : string).
Local Arguments String.append : simpl nomatch.

Lemma replace_ext_no_dot f e :
  contains f "." = false → replace_ext f e = Ret (f +:+ "." +:+ e).
Proof.
  intros Hf%rfind_None. unfold replace_ext. rewrite Hf. simpl.
  unfold push_back. by rewrite append_assoc.
Qed.

Lemma replace_ext_last_dot pre suf e :
  contains suf "." = false →
  replace_ext (pre +:+ "." +:+ suf) e = Ret (pre +:+ "." +:+ e).
Proof.
  intros Hsuf. unfold replace_ext.
  change ("." +:+ suf) with (String "." suf).
  rewrite rfind_last_occurrence by done.
  rewrite substr_from_start. simpl.
  rewrite take_app_length_plus. simpl.
  by rewrite append_assoc.
Qed.

(** A filename has no dot, or splits at its last dot. *)
Lemma last_dot_cases f :
  contains f "." = false ∨
  ∃ pre suf, f = pre +:+ "." +:+ suf ∧ contains suf "." = false.
Proof.
  destruct (rfind f ".") as [i|] eqn:Hr.
  - right. apply rfind_Some in Hr as [Hf Hc].
    exists (take i f), (drop (S i) f). split; [exact Hf | exact Hc].
  - left. by apply rfind_None.
Qed.

Lemma replace_ext_returns f e : returns (replace_ext f e).
Proof.
  destruct (last_dot_cases f) as [Hf | (pre & suf & -> & Hsuf)].
  - rewrite replace_ext_no_dot by done. by eexists.
  - rewrite replace_ext_last_dot by done. by eexists.
Qed.

Lemma find_ext_last_dot pre suf :
  contains suf "." = false →
  find_ext (pre +:+ "." +:+ suf) = Ret (true, suf).
Proof.
  intros Hsuf. unfold find_ext.
  change ("." +:+ suf) with (String "." suf).
  rewrite rfind_last_occurrence by done.
  rewrite substr_to_end by (rewrite length_append; simpl; lia).
  simpl. by rewrite drop_app_length_plus.
Qed.

Lemma find_ext_returns f : returns (find_ext f).
Proof.
  unfold find_ext. destruct (rfind f ".") as [i|] eqn:Hr; [|by eexists].
  apply rfind_lt in Hr. rewrite substr_to_end by lia. by eexists.
Qed.

(** The result of [replace_ext] always ends in a dot followed by the
    extension. *)
Lemma replace_ext_shape f e :
  ∃ stem, replace_ext f e = Ret (stem +:+ "." +:+ e).
Proof.
  destruct (last_dot_cases f) as [Hf | (pre & suf & -> & Hsuf)].
  - exists f. by apply replace_ext_no_dot.
  - exists pre. by apply replace_ext_last_dot.
Qed.

End extensions.

(** C8. [replace_ext] returns on every filename and extension (it neither
    throws nor runs into undefined behaviour); when the filename splits
    as [pre.suf] with no dot in [suf], the result is [pre.ext]: all up to
    and including the last dot is kept and the new extension follows;
    when the filename has no dot, the result is the filename, a dot and
    the extension; so replace_ext("archive", "mp3") is "archive.mp3". *)
Theorem replace_ext_total_last_dot (f e : string) :
  returns (replace_ext f e) ∧
  (∀ pre suf, f = pre +:+ "." +:+ suf → contains suf "." = false →
     replace_ext f e = Ret (pre +:+ "." +:+ e)) ∧
  (contains f "." = false → replace_ext f e = Ret (f +:+ "." +:+ e)) ∧
  replace_ext "archive" "mp3" = Ret "archive.mp3".
Proof.
  split; [apply replace_ext_returns |].
  split; [intros pre suf -> Hsuf; by apply replace_ext_last_dot |].
  split; [apply replace_ext_no_dot | reflexivity].
Qed.

Lemma replace_ext_total_last_dot_witness :
  (contains "gz" "." = false ∧
   replace_ext "archive.tar.gz" "mp3" = Ret "archive.tar.mp3") ∧
  (contains "archive" "." = false ∧
   replace_ext "archive" "mp3" = Ret "archive.mp3").
Proof.
  split; (split; [reflexivity |]).
  - apply (proj1 (proj2 (replace_ext_total_last_dot "archive.tar.gz" "mp3"))
             "archive.tar" "gz"); reflexivity.
  - apply (proj1 (proj2 (proj2 (replace_ext_total_last_dot "archive" "mp3")))).
    reflexivity.
Defined.

(** C10. For every filename [f] and every non-empty extension [e] without
    a dot, [find_ext] applied to the result of [replace_ext f e] returns
    true and extracts [e]. *)
Theorem find_ext_replace_ext (f e : string) :
  contains e "." = false → e ≠ "" →
  (do r <- replace_ext f e; find_ext r) = Ret (true, e).
Proof.
  intros He _. destruct (replace_ext_shape f e) as [stem ->]. simpl.
  by apply find_ext_last_dot.
Qed.

Lemma find_ext_replace_ext_witness :
  contains "mp3" "." = false ∧ "mp3" ≠ "" ∧
  (do r <- replace_ext "/src/music/track.flac" "mp3"; find_ext r) = Ret (true, "mp3").
Proof.
  split; [reflexivity |]. split; [discriminate |].
  apply (find_ext_replace_ext "/src/music/track.flac" "mp3"); [reflexivity | discriminate].
Defined.

(** C5, as amended.  For every filename [f] and every extension [e] that
    contains no dot, replacing the extension twice in succession with [e]
    gives the same string as replacing it once. *)
Theorem replace_ext_idempotent_dotless (f e : string) :
  contains e "." = false →
  (do r <- replace_ext f e; replace_ext r e) = replace_ext f e
  ∧ returns (replace_ext f e).
Proof.
  intros He. split; [|apply replace_ext_returns].
  destruct (replace_ext_shape f e) as [stem ->]. simpl.
  by apply replace_ext_last_dot.
Qed.

Lemma replace_ext_idempotent_dotless_witness :
  contains "mp3" "." = false ∧
  (do r <- replace_ext "track.flac" "mp3"; replace_ext r "mp3")
  = replace_ext "track.flac" "mp3"
  ∧ returns (replace_ext "track.flac" "mp3").
Proof.
  split; [reflexivity |].
  apply (replace_ext_idempotent_dotless "track.flac" "mp3"). reflexivity.
Defined.

(** C5, as stated, fails for an extension that contains a dot: the second
    replacement cuts at the dot inside the extension added by the first. *)
Lemma replace_ext_twice_dotted_differs :
  replace_ext "track.flac" "tar.gz" = Ret "track.tar.gz" ∧
  (do r <- replace_ext "track.flac" "tar.gz"; replace_ext r "tar.gz")
    = Ret "track.tar.tar.gz" ∧
  (do r <- replace_ext "track.flac" "tar.gz"; replace_ext r "tar.gz")
    ≠ replace_ext "track.flac" "tar.gz".
Proof. split; [reflexivity | split; [reflexivity | discriminate]]. Qed.

(** ** The format catalogue *)

Lemma canonical_token_recognised (ft : FILETYPE) :
  get_filetype (canonical_token ft) = ft.
Proof. by destruct ft. Qed.

(** C7. For every file type other than [FILETYPE_UNKNOWN], [get_filetype]
    maps its token back to it, and [get_codecs] on that token fills in a
    format of exactly that type whose format name is not empty and whose
    audio codec is not [AV_CODEC_ID_NONE]; the format name need not be the
    token: for "prores" it is "mov". *)
Theorem catalog_lookup_canonical_token (ft : FILETYPE) (format : ffmpegfs_format) :
  ft ≠ FILETYPE_UNKNOWN →
  get_filetype (canonical_token ft) = ft ∧
  m_filetype (get_codecs (canonical_token ft) format).2 = ft ∧
  m_format_name (get_codecs (canonical_token ft) format).2 ≠ "" ∧
  m_audio_codec_id (get_codecs (canonical_token ft) format).2 ≠ AV_CODEC_ID_NONE ∧
  m_format_name (get_codecs "prores" format).2 = "mov".
Proof.
  intros Hft. split; [apply canonical_token_recognised |].
  destruct ft; try done; repeat split; done.
Qed.

Lemma catalog_lookup_canonical_token_witness :
  FILETYPE_WEBM ≠ FILETYPE_UNKNOWN ∧
  get_filetype "webm" = FILETYPE_WEBM ∧
  m_filetype (get_codecs "webm" blank_format).2
    = FILETYPE_WEBM.
Proof.
  pose proof (catalog_lookup_canonical_token FILETYPE_WEBM
                blank_format
                ltac:(discriminate)) as (H1 & H2 & _).
  split; [discriminate | exact (conj H1 H2)].
Defined.

(** C9. [get_codecs] returns 0 exactly when the destination type is not
    recognised, and then leaves the format as it was; for every recognised
    destination type it returns -1, although it has filled in the format
    in full: type, token, audio codec and format name are those of the
    type, and no member (the video codec included) keeps anything of the
    format that was passed in. *)
Theorem get_codecs_status (desttype : string) (format : ffmpegfs_format) :
  ((get_codecs desttype format).1 = 0%Z ↔ get_filetype desttype = FILETYPE_UNKNOWN) ∧
  (get_filetype desttype = FILETYPE_UNKNOWN →
     (get_codecs desttype format).2 = format) ∧
  (get_filetype desttype ≠ FILETYPE_UNKNOWN →
     (get_codecs desttype format).1 = (-1)%Z ∧
     m_filetype (get_codecs desttype format).2 = get_filetype desttype ∧
     m_desttype (get_codecs desttype format).2 = desttype ∧
     m_audio_codec_id (get_codecs desttype format).2 ≠ AV_CODEC_ID_NONE ∧
     m_format_name (get_codecs desttype format).2 ≠ "" ∧
     (∀ format', (get_codecs desttype format').2 = (get_codecs desttype format).2)).
Proof.
  unfold get_codecs.
  destruct (get_filetype desttype); simpl; repeat split; intros; done.
Qed.

Lemma get_codecs_status_witness :
  (get_filetype "Mp4" ≠ FILETYPE_UNKNOWN ∧
   (get_codecs "Mp4" blank_format).1
     = (-1)%Z) ∧
  (get_filetype "xyz" = FILETYPE_UNKNOWN ∧
   (get_codecs "xyz" blank_format).1
     = 0%Z).
Proof.
  split; (split; [first [reflexivity | discriminate] |]).
  - apply (proj2 (proj2 (get_codecs_status "Mp4"
             blank_format))).
    discriminate.
  - apply (proj1 (get_codecs_status "xyz"
             blank_format)).
    reflexivity.
Defined.

(** ** The destination type list *)

Lemma get_filetype_loop_unknown (rest : list string) :
  get_filetype_loop rest FILETYPE_UNKNOWN = FILETYPE_UNKNOWN.
Proof. by destruct rest. Qed.

(** What the loop would do once entered with a known type: it keeps
    overwriting it until a token misses. *)
Lemma get_filetype_loop_known (tok : string) (rest : list string) (ft : FILETYPE) :
  ft ≠ FILETYPE_UNKNOWN →
  get_filetype_loop (tok :: rest) ft = get_filetype_loop rest (get_filetype tok).
Proof. intros Hft. simpl. by rewrite bool_decide_eq_true_2. Qed.

(** C1 on the code.  The loop of [get_filetype_from_list] tests
    [filetype != FILETYPE_UNKNOWN] before its first round, with [filetype]
    still [FILETYPE_UNKNOWN]: no token is ever looked up and every list
    resolves to [FILETYPE_UNKNOWN].  For "xyz,mp3,mp4" the first token, in
    order, that the catalogue knows is "mp3", which is what the claim
    expects. *)
Theorem get_filetype_from_list_always_unknown :
  (∀ desttypelist, get_filetype_from_list desttypelist = FILETYPE_UNKNOWN) ∧
  get_filetype_from_list "xyz,mp3,mp4" = FILETYPE_UNKNOWN ∧
  resolve_spec "xyz,mp3,mp4" = FILETYPE_MP3.
Proof.
  split; [|split; reflexivity].
  intros l. unfold get_filetype_from_list. apply get_filetype_loop_unknown.
Qed.

(** ** The trailing separator *)

Section separators.
Implicit Types (s p path : string) (a : ascii).
Local Arguments String.append : simpl nomatch.

Lemma back_push_back s a : back (s +:+ String a "") = Ret a.
Proof.
  induction s as [|b s IH]; [done |].
  change (back (String b (s +:+ String a "")) = Ret a).
  destruct s as [|b' s]; [done |]. exact IH.
Qed.

Lemma back_Ret s a : back s = Ret a → ∃ p, s = p +:+ String a "".
Proof.
  induction s as [|b s IH]; [done |].
  destruct s as [|b' s].
  - intros [= ->]. by exists "".
  - intros H. destruct (IH H) as [p Hp]. exists (String b p).
    change (String b (String b' s) = String b (p +:+ String a "")). by f_equal.
Qed.

Lemma back_returns s : s ≠ "" → returns (back s).
Proof.
  induction s as [|b s IH]; [done |]. intros _.
  destruct s as [|b' s]; [by eexists |]. by apply IH.
Qed.

Lemma append_sep_ends_in_sep p : append_sep (p +:+ "/") = Ret (p +:+ "/").
Proof. unfold append_sep. by rewrite back_push_back. Qed.

Lemma append_sep_adds_sep path :
  path ≠ "" → ¬ (∃ p, path = p +:+ "/") → append_sep path = Ret (path +:+ "/").
Proof.
  intros Hne Hno. unfold append_sep.
  destruct (back_returns path Hne) as [a Ha]. rewrite Ha. simpl.
  destruct (Ascii.eqb a "/") eqn:Ea; [|done].
  apply Ascii.eqb_eq in Ea as ->. apply back_Ret in Ha. contradiction.
Qed.

End separators.

(** C6 on the code.  [append_sep] reads [path->back()] first, which the
    C++ standard leaves undefined on an empty string: on "" the call has
    no defined result, where the claim wants "/".  On every other path it
    returns, leaving alone a path that ends in '/' and adding a '/' to one
    that does not. *)
Theorem append_sep_empty_undefined :
  append_sep "" = Fault undefined_behaviour ∧
  (∀ path, path ≠ "" →
     ((∃ p, path = p +:+ "/") → append_sep path = Ret path) ∧
     (¬ (∃ p, path = p +:+ "/") → append_sep path = Ret (path +:+ "/"))).
Proof.
  split; [reflexivity |]. intros path Hne. split.
  - intros [p ->]. apply append_sep_ends_in_sep.
  - by apply append_sep_adds_sep.
Qed.

Lemma append_sep_empty_undefined_witness :
  "/mnt/" ≠ "" ∧ append_sep "/mnt/" = Ret "/mnt/".
Proof.
  split; [discriminate |].
  apply (proj1 (proj2 append_sep_empty_undefined "/mnt/" ltac:(discriminate))).
  exists "/mnt". reflexivity.
Defined.

(** ** The destination name *)

Section destination.
Implicit Types (s f e : string) (c : ascii).
Local Arguments String.append : simpl nomatch.

Lemma after_last_slash_no_slash s : contains (after_last_slash s) "/" = false.
Proof.
  induction s as [|a s IH]; [done |]. simpl.
  destruct (rfind s "/") as [i|] eqn:Hr; [exact IH |].
  apply rfind_None in Hr.
  unfold is_slash. destruct (Ascii.eqb a "/") eqn:Ea; [exact Hr |].
  simpl. by rewrite Ea, Hr.
Qed.

(** [basename] gives a name without any '/', except for the root. *)
Lemma basename_no_slash s : basename s ≠ "/" → contains (basename s) "/" = false.
Proof.
  unfold basename. destruct s as [|a s]; [done |].
  destruct (strip_trailing_slashes (String a s)); [done |].
  intros _. apply after_last_slash_no_slash.
Qed.

Lemma replace_ext_preserves_absence f e c r :
  c ≠ "."%char → contains f c = false → contains e c = false →
  replace_ext f e = Ret r → contains r c = false.
Proof.
  intros Hc Hf He.
  assert (Ascii.eqb "." c = false) as Hdot by (by apply Ascii.eqb_neq).
  destruct (last_dot_cases f) as [Hd | (pre & suf & -> & Hsuf)].
  - rewrite replace_ext_no_dot by done. intros [= <-].
    rewrite contains_app, Hf. change ("." +:+ e) with (String "." e).
    by rewrite contains_cons, Hdot, He.
  - rewrite replace_ext_last_dot by done. intros [= <-].
    rewrite contains_app in Hf. apply orb_false_iff in Hf as [Hpre _].
    rewrite contains_app, Hpre. change ("." +:+ e) with (String "." e).
    by rewrite contains_cons, Hdot, He.
Qed.

End destination.

(** C3, as stated, fails for a mount path without trailing separator:
    [get_destname] joins mount path and name directly. *)
Lemma get_destname_no_separator_inserted :
  get_destname (mk_params "/mnt" (λ _, mp3_format)) "/src/music/track.flac"
    = Ret "/mnttrack.mp3" ∧
  get_destname (mk_params "/mnt" (λ _, mp3_format)) "/src/music/track.flac"
    ≠ Ret "/mnt/track.mp3".
Proof. split; [reflexivity | discriminate]. Qed.

(** C3, as amended.  For every source path, mount root and format,
    [get_destname] takes the base name of the source path, replaces its
    extension by the format name and puts the mount path in front of the
    result as it is, adding no separator of its own: a mount path [root/]
    gives [root/name], with the one separator that the mount path ends
    in, and a mount path [root] gives [rootname].  The name has no
    directory left in it: it contains no separator, unless the source
    path is made of separators only or the format name has one. *)
Theorem get_destname_prefixes_mountpath
    (root : string) (format_of : string → ffmpegfs_format) (filename : string) :
  ∃ name,
    replace_ext (basename (c_str filename)) (m_format_name (format_of filename)) = Ret name ∧
    get_destname (mk_params (root +:+ "/") format_of) filename = Ret (root +:+ "/" +:+ name) ∧
    get_destname (mk_params root format_of) filename = Ret (root +:+ name) ∧
    (basename (c_str filename) ≠ "/" →
     contains (m_format_name (format_of filename)) "/" = false →
     contains name "/" = false).
Proof.
  destruct (replace_ext_returns (basename (c_str filename))
              (m_format_name (format_of filename))) as [name Hname].
  exists name. split; [exact Hname |].
  unfold get_destname, remove_path, new_strdup. simpl. rewrite Hname. simpl.
  split; [by rewrite append_assoc |]. split; [done |].
  intros Hbase Hext.
  eapply replace_ext_preserves_absence; [| |exact Hext|exact Hname]; [done |].
  by apply basename_no_slash.
Qed.

Lemma get_destname_prefixes_mountpath_witness :
  basename (c_str "/src/music/track.flac") ≠ "/" ∧
  contains (m_format_name mp3_format) "/" = false ∧
  get_destname (mk_params "/mnt/" (λ _, mp3_format)) "/src/music/track.flac"
    = Ret "/mnt/track.mp3" ∧
  contains "track.mp3" "/" = false.
Proof.
  split; [discriminate |]. split; [reflexivity |].
  destruct (get_destname_prefixes_mountpath "/mnt" (λ _, mp3_format)
              "/src/music/track.flac")
    as (name & Hname & Hdest & _ & Hdir).
  injection Hname as <-.
  split; [exact Hdest | apply Hdir; [discriminate | reflexivity]].
Defined.

(** ** Mount point detection *)

Example is_mount_examples :
  map (is_mount example_stat) ["/mnt/media"; "/"; "/home/u"; "/home/u/song.flac"; "/nowhere"]
  = [1; 1; 0; -1; -1]%Z.
Proof. vm_compute. reflexivity. Qed.

Example is_mount_socket :
  is_mount (λ path, if decide (path = "/home/u/ctl.sock")
                    then Some (mk_stat 2049 43 (S_IFSOCK + 493))
                    else example_stat path) "/home/u/ctl.sock" = 0%Z.
Proof. vm_compute. reflexivity. Qed.

(** C4, as stated, fails on a regular file inside an ordinary directory:
    the file and its parent are on the same device, with different
    inodes, yet [is_mount] returns -1, the value it also returns when
    [stat] fails, and not 0. *)
Lemma is_mount_regular_file_not_false :
  example_stat "/home/u/song.flac" = Some (mk_stat 2049 42 (S_IFREG + 420)) ∧
  example_stat (dirname "/home/u/song.flac") = Some (mk_stat 2049 7 (S_IFDIR + 493)) ∧
  is_mount example_stat "/home/u/song.flac" = (-1)%Z ∧
  is_mount example_stat "/home/u/song.flac" ≠ 0%Z.
Proof. vm_compute. repeat split; discriminate. Qed.

Lemma land_file_type (mode type : Z) :
  Z.land mode S_IFMT = type → Z.land mode S_IFDIR = Z.land type S_IFDIR.
Proof.
  intros <-. rewrite <- Z.land_assoc.
  by change (Z.land S_IFMT S_IFDIR) with S_IFDIR.
Qed.

(** C4, as amended.  [is_mount] looks at the bit [S_IFDIR] of the mode,
    which every directory has, and block devices and sockets too.  For a
    path that [stat] finds with this bit set, and whose parent [stat]
    finds too, it returns 1 when the device ids differ or when device and
    inode are those of the parent, and 0 otherwise.  It returns -1, a
    value distinct from both, when [stat] fails on the path or on its
    parent, and also when the mode of the path lacks the bit, as it does
    for a regular file. *)
Theorem is_mount_outcomes (stat : string → option stat_t) (filename : string) :
  (∀ file_stat parent_stat,
     stat (c_str filename) = Some file_stat →
     Z.land (st_mode file_stat) S_IFDIR ≠ 0%Z →
     stat (dirname (c_str filename)) = Some parent_stat →
     (st_dev file_stat ≠ st_dev parent_stat → is_mount stat filename = 1%Z) ∧
     (st_dev file_stat = st_dev parent_stat → st_ino file_stat = st_ino parent_stat →
        is_mount stat filename = 1%Z) ∧
     (st_dev file_stat = st_dev parent_stat → st_ino file_stat ≠ st_ino parent_stat →
        is_mount stat filename = 0%Z)) ∧
  (stat (c_str filename) = None → is_mount stat filename = (-1)%Z) ∧
  (∀ file_stat,
     stat (c_str filename) = Some file_stat →
     Z.land (st_mode file_stat) S_IFDIR = 0%Z →
     is_mount stat filename = (-1)%Z) ∧
  (∀ file_stat,
     stat (c_str filename) = Some file_stat →
     Z.land (st_mode file_stat) S_IFDIR ≠ 0%Z →
     stat (dirname (c_str filename)) = None →
     is_mount stat filename = (-1)%Z) ∧
  (∀ file_stat,
     stat (c_str filename) = Some file_stat →
     Z.land (st_mode file_stat) S_IFMT = S_IFREG →
     is_mount stat filename = (-1)%Z) ∧
  (∀ mode,
     Z.land mode S_IFMT = S_IFDIR ∨ Z.land mode S_IFMT = S_IFBLK ∨
     Z.land mode S_IFMT = S_IFSOCK →
     Z.land mode S_IFDIR ≠ 0%Z).
Proof.
  unfold is_mount, is_mount_try, new_strdup.
  split; [|split; [|split; [|split; [|split]]]].
  - intros file_stat parent_stat -> Hdir%Z.eqb_neq ->. rewrite Hdir.
    split; [|split].
    + intros Hdev%Z.eqb_neq. by rewrite Hdev.
    + intros -> ->. by rewrite !Z.eqb_refl.
    + intros -> Hino%Z.eqb_neq. by rewrite Z.eqb_refl, Hino.
  - by intros ->.
  - by intros file_stat -> ->.
  - intros file_stat -> Hdir%Z.eqb_neq ->. by rewrite Hdir.
  - intros file_stat -> Hreg%land_file_type. by rewrite Hreg.
  - intros mode [H%land_file_type | [H%land_file_type | H%land_file_type]];
      by rewrite H.
Qed.

Lemma is_mount_outcomes_witness :
  example_stat (c_str "/mnt/media") = Some (mk_stat 2065 2 (S_IFDIR + 493)) ∧
  Z.land (st_mode (mk_stat 2065 2 (S_IFDIR + 493))) S_IFDIR ≠ 0%Z ∧
  example_stat (dirname (c_str "/mnt/media")) = Some (mk_stat 2049 11 (S_IFDIR + 493)) ∧
  is_mount example_stat "/mnt/media" = 1%Z.
Proof.
  split; [vm_compute; reflexivity |].
  split; [vm_compute; discriminate |].
  split; [vm_compute; reflexivity |].
  refine (proj1 (proj1 (is_mount_outcomes example_stat "/mnt/media")
                   (mk_stat 2065 2 (S_IFDIR + 493)) (mk_stat 2049 11 (S_IFDIR + 493))
                   _ _ _) _).
  - vm_compute; reflexivity.
  - vm_compute; discriminate.
  - vm_compute; reflexivity.
  - vm_compute; discriminate.
Defined.

(** ** Directory tree creation *)

Section mktree_facts.
Implicit Types (w : world) (path dir : string) (mode status : Z) (toks : list string).

Lemma mkdir_dirs_mono w path mode : dirs w ⊆ dirs (mkdir w path mode).1.
Proof.
  unfold mkdir. destruct (dir_exists w path); [done |].
  destruct (dir_exists w (dirname path)); simpl; set_solver.
Qed.

Lemma mkdir_created w path mode :
  (mkdir w path mode).2 = 0%Z → path ∈ dirs (mkdir w path mode).1.
Proof.
  unfold mkdir. destruct (dir_exists w path); [done |].
  destruct (dir_exists w (dirname path)); simpl; [set_solver | done].
Qed.

Lemma mkdir_existing w path mode :
  path ∈ dirs w → mkdir w path mode = (set_errno EEXIST w, (-1)%Z).
Proof.
  intros Hin. unfold mkdir, dir_exists.
  rewrite (bool_decide_eq_true_2 (path ∈ dirs w)) by done.
  by rewrite orb_true_r.
Qed.

Lemma mkdir_status w path mode :
  (mkdir w path mode).2 = 0%Z ∨ (mkdir w path mode).2 = (-1)%Z.
Proof.
  unfold mkdir. destruct (dir_exists w path); [by right |].
  destruct (dir_exists w (dirname path)); [by left | by right].
Qed.

Lemma mktree_loop_dirs_mono mode toks dir status w :
  dirs w ⊆ dirs (mktree_loop mode toks dir status w).1.
Proof.
  revert dir status w. induction toks as [|p toks IH]; intros dir status w; [done |].
  simpl. destruct (res_bind _ _) as [dir'|f]; [|done].
  pose proof (mkdir_dirs_mono (set_errno 0 w) dir' mode) as Hm.
  destruct (mkdir (set_errno 0 w) dir' mode) as [w1 newstat].
  simpl in Hm. destruct (_ && _); simpl; [done |].
  etrans; [exact Hm | apply IH].
Qed.

(** When a run over at least one token has ended with status 0, its last
    [mkdir] has created the last directory; a run over the same tokens in
    a world that still has the directories of the first ends with -1. *)
Lemma mktree_loop_again mode toks dir status w w' status2 w2 :
  toks ≠ [] →
  mktree_loop mode toks dir status w = (w', Ret 0%Z) →
  dirs w' ⊆ dirs w2 →
  ∃ w2', mktree_loop mode toks dir status2 w2 = (w2', Ret (-1)%Z).
Proof.
  revert dir status w status2 w2.
  induction toks as [|p toks IH]; intros dir status w status2 w2 Hne; [done |].
  simpl. destruct (res_bind _ _) as [dir'|f]; [|done].
  pose proof (mkdir_created (set_errno 0 w) dir' mode) as Hcreated.
  destruct (mkdir (set_errno 0 w) dir' mode) as [w1 newstat] eqn:Hmk1.
  destruct (_ && _); [done |]. intros Hrun Hsub.
  destruct (mkdir (set_errno 0 w2) dir' mode) as [w3 newstat2] eqn:Hmk2.
  destruct (_ && _); [by eexists |].
  destruct toks as [|q toks].
  - simpl in Hrun. injection Hrun as -> ->.
    assert (dir' ∈ dirs (set_errno 0 w2)) as Hin by (simpl; set_solver).
    rewrite (mkdir_existing _ _ mode Hin) in Hmk2.
    injection Hmk2 as <- <-. by eexists.
  - eapply (IH dir' newstat w1); [done | exact Hrun |].
    pose proof (mkdir_dirs_mono (set_errno 0 w2) dir' mode) as Hm.
    rewrite Hmk2 in Hm. simpl in Hm. set_solver.
Qed.

End mktree_facts.

(** C2 on the code.  After the test that lets "already exists" pass,
    [mktree] still stores the result of [mkdir] in [status], and returns
    it: whenever a call on a path with at least one component has
    returned 0, the same call made again returns -1, where the claim
    wants it to report success. *)
Theorem mktree_second_call_fails (filename : string) (mode : Z) (w w' : world) :
  strtok_slash (c_str filename) ≠ [] →
  mktree filename mode w = (w', Ret 0%Z) →
  ∃ w'', mktree filename mode w' = (w'', Ret (-1)%Z).
Proof.
  unfold mktree, new_strdup. intros Hne Hrun.
  by eapply mktree_loop_again.
Qed.

Lemma mktree_second_call_fails_witness :
  strtok_slash (c_str "/a/b/c") ≠ [] ∧
  (∃ w', mktree "/a/b/c" 493 empty_world = (w', Ret 0%Z) ∧
         ∃ w'', mktree "/a/b/c" 493 w' = (w'', Ret (-1)%Z)).
Proof.
  split; [discriminate |].
  eexists. split; [vm_compute; reflexivity |].
  apply (mktree_second_call_fails "/a/b/c" 493 empty_world).
  - discriminate.
  - vm_compute; reflexivity.
Defined.

(** * Further properties of the code *)

(** ** Path helpers *)

Section path_helpers.
Implicit Types (s t x p path dir name : string) (a c : ascii).
Local Arguments String.append : simpl nomatch.

Lemma append_cons a s t : String a s +:+ t = String a (s +:+ t).
Proof. done. Qed.

Lemma append_nonempty_r s t : t ≠ "" → s +:+ t ≠ "".
Proof. destruct s; [done |]. by rewrite append_cons. Qed.

(** [append_sep] on a non-empty path: the result ends in '/' and is the
    path itself or the path with one '/' added. *)
Lemma append_sep_nonempty path :
  path ≠ "" →
  ∃ r, append_sep path = Ret r ∧ (∃ p, r = p +:+ "/") ∧ (r = path ∨ r = path +:+ "/").
Proof.
  intros Hne. destruct (back_returns path Hne) as [a Ha].
  destruct (decide (a = "/"%char)) as [-> | Hna].
  - apply back_Ret in Ha as [p ->]. exists (p +:+ "/").
    split; [apply append_sep_ends_in_sep |]. split; [by exists p | by left].
  - exists (path +:+ "/"). split; [|split; [by exists path | by right]].
    apply append_sep_adds_sep; [done |]. intros [p ->].
    rewrite back_push_back in Ha. by injection Ha as <-.
Qed.

Lemma strip_cases s :
  strip_trailing_slashes s = "" ∨
  ∃ x a, strip_trailing_slashes s = x +:+ String a "" ∧ a ≠ "/"%char.
Proof.
  induction s as [|b s IH]; [by left |]. simpl.
  destruct IH as [-> | (x & a & -> & Ha)].
  - unfold is_slash. destruct (Ascii.eqb b "/") eqn:Eb; [by left |].
    right. exists "", b. split; [done |]. by apply Ascii.eqb_neq.
  - right. exists (String b x), a. split; [|done].
    destruct x; done.
Qed.

Lemma strip_clean p :
  contains p "/" = false → strip_trailing_slashes p = p.
Proof.
  induction p as [|a p IHp]; [done |].
  rewrite contains_cons. intros [Ha Hp]%orb_false_iff.
  simpl. rewrite (IHp Hp). destruct p as [|a' p]; [|done].
  unfold is_slash. by rewrite Ha.
Qed.

Lemma strip_app_clean x p :
  p ≠ "" → contains p "/" = false →
  strip_trailing_slashes (x +:+ p) = x +:+ p.
Proof.
  intros Hne Hp. induction x as [|b x IH].
  - change ("" +:+ p) with p. by apply strip_clean.
  - rewrite append_cons. simpl. rewrite IH.
    destruct (x +:+ p) eqn:E; [|done].
    by apply append_nonempty_r in E.
Qed.

Lemma after_last_slash_id p : contains p "/" = false → after_last_slash p = p.
Proof.
  destruct p as [|a p]; [done |]. rewrite contains_cons.
  intros [Ha Hp]%orb_false_iff. simpl.
  apply rfind_None in Hp as ->. unfold is_slash. by rewrite Ha.
Qed.

Lemma after_last_slash_app x p :
  contains p "/" = false → after_last_slash (x +:+ String "/" p) = p.
Proof.
  intros Hp. induction x as [|b x IH].
  - change ("" +:+ String "/" p) with (String "/" p). simpl.
    by apply rfind_None in Hp as ->.
  - rewrite append_cons. simpl.
    by rewrite rfind_last_occurrence.
Qed.

Lemma after_last_slash_nonempty x a :
  a ≠ "/"%char → after_last_slash (x +:+ String a "") ≠ "".
Proof.
  intros Ha. apply Ascii.eqb_neq in Ha.
  induction x as [|b x IH].
  - change ("" +:+ String a "") with (String a ""). simpl.
    unfold is_slash. by rewrite Ha.
  - rewrite append_cons. simpl.
    destruct (rfind (x +:+ String a "") "/"); [done |].
    destruct (is_slash b); [|done].
    by apply append_nonempty_r.
Qed.

Lemma basename_nonempty s : basename s ≠ "".
Proof.
  unfold basename. destruct s as [|b s]; [done |].
  destruct (strip_cases (String b s)) as [-> | (x & a & -> & Ha)]; [done |].
  pose proof (after_last_slash_nonempty x a Ha).
  by destruct (x +:+ String a "").
Qed.

(** The base name of a path that ends in a component without '/'. *)
Lemma basename_app x p :
  p ≠ "" → contains p "/" = false → basename (x +:+ String "/" p) = p.
Proof.
  intros Hne Hp.
  assert (strip_trailing_slashes (x +:+ String "/" p) = x +:+ String "/" p) as Hs.
  { change (x +:+ String "/" p) with (x +:+ "/" +:+ p).
    rewrite <- append_assoc. by apply strip_app_clean. }
  pose proof (after_last_slash_app x p Hp) as Ha.
  unfold basename. rewrite Hs.
  destruct (x +:+ String "/" p) eqn:E; [|exact Ha].
  by apply append_nonempty_r in E.
Qed.

Lemma basename_plain_name p :
  p ≠ "" → contains p "/" = false → basename p = p.
Proof.
  intros Hne Hp. unfold basename. destruct p as [|a p]; [done |].
  pose proof (strip_app_clean "" (String a p) Hne Hp) as Hs.
  change ("" +:+ String a p) with (String a p) in Hs. rewrite Hs.
  by apply after_last_slash_id.
Qed.

Lemma dirname_nonempty s : dirname s ≠ "".
Proof.
  unfold dirname.
  destruct (strip_trailing_slashes s) as [|b t] eqn:Hs.
  - destruct s as [|? [|? [|? ?]]]; done.
  - destruct (rfind (String b t) "/") as [i|]; [|done].
    destruct (strip_trailing_slashes (take i (String b t))); [|done].
    by destruct (i =? 1)%nat.
Qed.

Lemma c_str_no_nul s : contains (c_str s) NUL = false.
Proof.
  induction s as [|a s IH]; [done |]. simpl.
  destruct (Ascii.eqb a NUL) eqn:Ea; [done |].
  by rewrite contains_cons, Ea, IH.
Qed.

Lemma c_str_id s : contains s NUL = false → c_str s = s.
Proof.
  induction s as [|a s IH]; [done |]. rewrite contains_cons.
  intros [Ha Hs]%orb_false_iff. simpl. by rewrite Ha, IH.
Qed.

Lemma strip_preserves_absence s c :
  contains s c = false → contains (strip_trailing_slashes s) c = false.
Proof.
  induction s as [|a s IH]; [done |]. rewrite contains_cons.
  intros [Ha Hs]%orb_false_iff. simpl.
  destruct (strip_trailing_slashes s) as [|b t] eqn:E.
  - destruct (is_slash a); [done |]. by rewrite contains_cons, Ha.
  - by rewrite contains_cons, Ha, (IH Hs).
Qed.

Lemma after_last_slash_preserves_absence s c :
  contains s c = false → contains (after_last_slash s) c = false.
Proof.
  induction s as [|a s IH]; [done |]. rewrite contains_cons.
  intros [Ha Hs]%orb_false_iff. simpl.
  destruct (rfind s "/"); [by apply IH |].
  destruct (is_slash a); [done |]. by rewrite contains_cons, Ha.
Qed.

Lemma basename_no_nul s : contains s NUL = false → contains (basename s) NUL = false.
Proof.
  intros Hs. unfold basename. destruct s as [|a s]; [done |].
  apply strip_preserves_absence in Hs.
  destruct (strip_trailing_slashes (String a s)); [done |].
  by apply after_last_slash_preserves_absence.
Qed.

End path_helpers.

(** X1. Applying [append_sep] to its own result changes nothing: a path
    gets at most one separator added, however often it is passed
    through. *)
Theorem append_sep_idempotent (path : string) :
  (do r <- append_sep path; append_sep r) = append_sep path.
Proof.
  destruct path as [|a s]; [done |].
  destruct (append_sep_nonempty (String a s)) as (r & Hr & [p ->] & _); [done |].
  rewrite Hr. simpl. apply append_sep_ends_in_sep.
Qed.

(** X2. [remove_path] undoes [append_filename]: for a non-empty directory
    and a non-empty file name without '/' (and no NUL in either), the
    base name of the joined path is the file name again, whether or not
    the directory ended in a separator. *)
Theorem remove_path_append_filename (dir name : string) :
  dir ≠ "" → contains dir NUL = false →
  name ≠ "" → contains name "/" = false → contains name NUL = false →
  (do r <- append_filename dir name; Ret (remove_path r)) = Ret name.
Proof.
  intros Hdir Hdnul Hname Hslash Hnnul.
  destruct (append_sep_nonempty dir Hdir) as (r & Hr & [p ->] & Hcase).
  unfold append_filename. rewrite Hr. simpl. f_equal.
  unfold remove_path, new_strdup.
  assert (contains (p +:+ "/") NUL = false) as Hpnul.
  { destruct Hcase as [-> | ->]; [done |]. by rewrite contains_app, Hdnul. }
  rewrite c_str_id by (by rewrite contains_app, Hpnul, Hnnul).
  rewrite append_assoc. by apply basename_app.
Qed.

Lemma remove_path_append_filename_witness :
  "/mnt/cache" ≠ "" ∧ "track.mp3" ≠ "" ∧
  (do r <- append_filename "/mnt/cache" "track.mp3"; Ret (remove_path r))
    = Ret "track.mp3".
Proof.
  split; [discriminate |]. split; [discriminate |].
  apply (remove_path_append_filename "/mnt/cache" "track.mp3");
    first [discriminate | reflexivity].
Defined.

(** X3. [remove_filename] returns on every path, the empty one too, and
    its result always ends in '/': [dirname] never gives an empty string,
    so the [back()] of [append_sep] is always defined here. *)
Theorem remove_filename_ends_in_sep (path : string) :
  ∃ d, remove_filename path = Ret (d +:+ "/").
Proof.
  unfold remove_filename.
  destruct (append_sep_nonempty (dirname (new_strdup path)))
    as (r & Hr & [p ->] & _); [apply dirname_nonempty |].
  by exists p.
Qed.

(** X4. [remove_path] never gives an empty name; the name contains no
    '/' unless it is the root "/" itself; and applying [remove_path] to
    its result changes nothing. *)
Theorem remove_path_idempotent (path : string) :
  remove_path path ≠ "" ∧
  (remove_path path = "/" ∨ contains (remove_path path) "/" = false) ∧
  remove_path (remove_path path) = remove_path path.
Proof.
  unfold remove_path, new_strdup.
  set (b := basename (c_str path)).
  assert (b ≠ "") as Hne by apply basename_nonempty.
  assert (contains b NUL = false) as Hnul
    by (apply basename_no_nul, c_str_no_nul).
  split; [done |].
  destruct (decide (b = "/")) as [-> | Hroot]; [by split; [left |] |].
  pose proof (basename_no_slash _ Hroot) as Hslash. fold b in Hslash.
  split; [by right |].
  rewrite (c_str_id b Hnul). by apply basename_plain_name.
Qed.

(** X5. [find_ext] returns on every file name.  It reports no extension
    exactly when the name has no dot, and it reports the extension [ext]
    exactly when the name is some stem, a dot and [ext], with no dot in
    [ext]. *)
Theorem find_ext_iff (filename : string) :
  (find_ext filename = Ret (false, "") ↔ contains filename "." = false) ∧
  (∀ ext, find_ext filename = Ret (true, ext) ↔
          ∃ stem, filename = stem +:+ "." +:+ ext ∧ contains ext "." = false) ∧
  returns (find_ext filename).
Proof.
  split; [|split; [|apply find_ext_returns]].
  - destruct (last_dot_cases filename) as [Hf | (pre & suf & -> & Hsuf)].
    + split; [done |]. intros _. unfold find_ext.
      by apply rfind_None in Hf as ->.
    + rewrite find_ext_last_dot by done. split; [done |].
      rewrite contains_app. intros [_ H]%orb_false_iff.
      change ("." +:+ suf) with (String "." suf) in H. by rewrite contains_cons in H.
  - intros ext. split.
    + destruct (last_dot_cases filename) as [Hf | (pre & suf & -> & Hsuf)].
      * unfold find_ext. by apply rfind_None in Hf as ->.
      * rewrite find_ext_last_dot by done. intros [= <-]. by exists pre.
    + intros (stem & -> & Hext). by apply find_ext_last_dot.
Qed.

Lemma find_ext_iff_witness :
  find_ext "archive.tar.gz" = Ret (true, "gz") ∧ find_ext "archive" = Ret (false, "").
Proof.
  split.
  - apply (proj1 (proj2 (find_ext_iff "archive.tar.gz")) "gz").
    exists "archive.tar". split; reflexivity.
  - apply (proj1 (find_ext_iff "archive")). reflexivity.
Defined.

(** X6. Replacing the extension of a file name by the extension that
    [find_ext] finds in it gives the file name back. *)
Theorem replace_ext_found_ext (filename ext : string) :
  find_ext filename = Ret (true, ext) → replace_ext filename ext = Ret filename.
Proof.
  destruct (last_dot_cases filename) as [Hf | (pre & suf & -> & Hsuf)].
  - unfold find_ext. by apply rfind_None in Hf as ->.
  - rewrite find_ext_last_dot by done. intros [= <-].
    by apply replace_ext_last_dot.
Qed.

Lemma replace_ext_found_ext_witness :
  find_ext "/src/music/track.flac" = Ret (true, "flac") ∧
  replace_ext "/src/music/track.flac" "flac" = Ret "/src/music/track.flac".
Proof.
  split; [reflexivity |].
  apply (replace_ext_found_ext "/src/music/track.flac" "flac"). reflexivity.
Defined.

(** X7. A second replacement overrides the first: when the first
    extension has no dot, replacing by [e1] and then by [e2] gives the
    same name as replacing by [e2] at once. *)
Theorem replace_ext_overrides (filename e1 e2 : string) :
  contains e1 "." = false →
  (do r <- replace_ext filename e1; replace_ext r e2) = replace_ext filename e2.
Proof.
  intros He1.
  destruct (last_dot_cases filename) as [Hf | (pre & suf & -> & Hsuf)].
  - rewrite !replace_ext_no_dot by done. simpl. by apply replace_ext_last_dot.
  - rewrite !replace_ext_last_dot by done. simpl. by apply replace_ext_last_dot.
Qed.

Lemma replace_ext_overrides_witness :
  contains "mp3" "." = false ∧
  (do r <- replace_ext "track.flac" "mp3"; replace_ext r "ogg") = Ret "track.ogg".
Proof.
  split; [reflexivity |].
  apply (replace_ext_overrides "track.flac" "mp3" "ogg"). reflexivity.
Defined.

(** X8. The destination name carries the format name as its extension:
    when the format name has no dot, [find_ext] on the result of
    [get_destname] finds exactly the format name, whatever the mount path
    and the source file name are. *)
Theorem find_ext_get_destname (params : ffmpegfs_params) (filename : string) :
  contains (m_format_name (current_format params filename)) "." = false →
  (do d <- get_destname params filename; find_ext d)
  = Ret (true, m_format_name (current_format params filename)).
Proof.
  intros Hext. unfold get_destname.
  destruct (replace_ext_shape (remove_path filename)
              (m_format_name (current_format params filename))) as [stem ->].
  simpl. rewrite <- append_assoc. by apply find_ext_last_dot.
Qed.

Lemma find_ext_get_destname_witness :
  contains (m_format_name mp3_format) "." = false ∧
  (do d <- get_destname (mk_params "/mnt/v1.2/" (λ _, mp3_format)) "/src/a.b/track";
   find_ext d) = Ret (true, "mp3").
Proof.
  split; [reflexivity |].
  apply (find_ext_get_destname (mk_params "/mnt/v1.2/" (λ _, mp3_format)) "/src/a.b/track").
  reflexivity.
Defined.

(** X9. With a mount path that ends in '/', [remove_path] takes the
    mount path off the destination name again: it gives the base name of
    the source with its extension replaced (the mount path and the format
    name holding no NUL, the format name no '/', and the source not being
    made of separators only). *)
Theorem remove_path_get_destname
    (root : string) (format_of : string → ffmpegfs_format) (filename : string) :
  contains root NUL = false →
  basename (c_str filename) ≠ "/" →
  contains (m_format_name (format_of filename)) "/" = false →
  contains (m_format_name (format_of filename)) NUL = false →
  (do d <- get_destname (mk_params (root +:+ "/") format_of) filename;
   Ret (remove_path d))
  = replace_ext (remove_path filename) (m_format_name (format_of filename)).
Proof.
  intros Hroot Hbase Hslash Hnul.
  unfold get_destname, remove_path, new_strdup. simpl.
  destruct (replace_ext_shape (basename (c_str filename))
              (m_format_name (format_of filename))) as [stem Hname].
  assert (contains (stem +:+ "." +:+ m_format_name (format_of filename)) "/" = false)
    as Hns.
  { eapply replace_ext_preserves_absence; [| |exact Hslash|exact Hname]; [done |].
    by apply basename_no_slash. }
  assert (contains (stem +:+ "." +:+ m_format_name (format_of filename)) NUL = false)
    as Hnn.
  { eapply replace_ext_preserves_absence; [| |exact Hnul|exact Hname]; [done |].
    apply basename_no_nul, c_str_no_nul. }
  rewrite Hname. simpl. f_equal.
  rewrite c_str_id by (by rewrite contains_app, contains_app, Hroot, Hnn).
  rewrite append_assoc.
  apply (basename_app root (stem +:+ "." +:+ m_format_name (format_of filename)));
    [|exact Hns].
  by apply append_nonempty_r.
Qed.

Lemma remove_path_get_destname_witness :
  basename (c_str "/src/music/track.flac") ≠ "/" ∧
  (do d <- get_destname (mk_params "/mnt/" (λ _, mp3_format)) "/src/music/track.flac";
   Ret (remove_path d)) = Ret "track.mp3".
Proof.
  split; [discriminate |].
  apply (remove_path_get_destname "/mnt" (λ _, mp3_format) "/src/music/track.flac");
    first [discriminate | reflexivity].
Defined.

(** ** Recognising destination types *)

Section type_tokens.
Implicit Types (s t lit : string) (a b : ascii).

Lemma tolower_zero a : tolower a = 0%Z → a = NUL.
Proof.
  unfold tolower. intros H.
  assert (nat_of_ascii a = 0%nat) as Hn.
  { destruct (_ && _) eqn:E; [|lia].
    apply andb_true_iff in E as [E1%Z.leb_le E2%Z.leb_le]. lia. }
  rewrite <- (ascii_nat_embedding a), Hn. done.
Qed.

Lemma libc_strcasecmp_zero s t :
  contains s NUL = false → contains t NUL = false →
  Libc.strcasecmp s t = 0%Z ↔ lowered s = lowered t.
Proof.
  revert t. induction s as [|a s IH]; intros [|b t]; simpl.
  - done.
  - rewrite orb_false_iff. intros _ [Hb%Ascii.eqb_neq _].
    split; [|done]. intros H. destruct Hb. apply tolower_zero. lia.
  - rewrite orb_false_iff. intros [Ha%Ascii.eqb_neq _] _.
    split; [|done]. intros H. destruct Ha. apply tolower_zero. lia.
  - rewrite !orb_false_iff. intros [_ Hs] [_ Ht].
    destruct (tolower a =? tolower b)%Z eqn:E.
    + apply Z.eqb_eq in E. rewrite (IH t Hs Ht). split.
      * intros ->. by rewrite E.
      * by intros [= _ ->].
    + apply Z.eqb_neq in E. split; [lia |]. by intros [= ? _].
Qed.

Lemma strcasecmp_zero s t :
  strcasecmp s t = 0%Z ↔ lowered (c_str s) = lowered (c_str t).
Proof. apply libc_strcasecmp_zero; apply c_str_no_nul. Qed.

Lemma is_type_lowered s lit :
  is_type s lit = bool_decide (lowered (c_str s) = lowered (c_str lit)).
Proof.
  unfold is_type. destruct (strcasecmp s lit =? 0)%Z eqn:E.
  - apply Z.eqb_eq, strcasecmp_zero in E. by rewrite bool_decide_eq_true_2.
  - apply Z.eqb_neq in E. rewrite bool_decide_eq_false_2; [done |].
    by rewrite <- strcasecmp_zero.
Qed.

Lemma c_str_cut s t : c_str (s +:+ String NUL t) = c_str s.
Proof.
  induction s as [|a s IH]; [done |].
  change (String a s +:+ String NUL t) with (String a (s +:+ String NUL t)).
  simpl. by rewrite IH.
Qed.

End type_tokens.

(** X10. [get_filetype] does not look at the case of letters: two
    tokens that [strcasecmp] finds equal get the same type. *)
Theorem get_filetype_ignores_case (s1 s2 : string) :
  strcasecmp s1 s2 = 0%Z → get_filetype s1 = get_filetype s2.
Proof.
  intros H%strcasecmp_zero. unfold get_filetype.
  by rewrite !is_type_lowered, H.
Qed.

Lemma get_filetype_ignores_case_witness :
  strcasecmp "WebM" "WEBM" = 0%Z ∧ get_filetype "WebM" = get_filetype "WEBM".
Proof.
  split; [reflexivity |].
  apply (get_filetype_ignores_case "WebM" "WEBM"). reflexivity.
Defined.

(** X11. A token is recognised as a type other than [FILETYPE_UNKNOWN]
    exactly when [strcasecmp] finds it equal to the token of that type:
    no entry of the chain in [get_filetype] hides a later one, and
    nothing but the nine tokens (in any case) is recognised. *)
Theorem get_filetype_iff_token (desttype : string) (ft : FILETYPE) :
  ft ≠ FILETYPE_UNKNOWN →
  get_filetype desttype = ft ↔ strcasecmp desttype (canonical_token ft) = 0%Z.
Proof.
  intros Hft. rewrite strcasecmp_zero. unfold get_filetype.
  rewrite !is_type_lowered. split.
  - repeat case_bool_decide; intros <-; done.
  - intros ->. by destruct ft.
Qed.

Lemma get_filetype_iff_token_witness :
  FILETYPE_AIFF ≠ FILETYPE_UNKNOWN ∧ get_filetype "Aiff" = FILETYPE_AIFF.
Proof.
  split; [discriminate |].
  apply (get_filetype_iff_token "Aiff" FILETYPE_AIFF); [discriminate | reflexivity].
Defined.

(** X12. [get_filetype] only sees the C string: whatever follows an
    embedded NUL character is ignored, so "mp3", a NUL and any other
    characters are recognised like "mp3". *)
Theorem get_filetype_stops_at_nul (s t : string) :
  get_filetype (s +:+ String NUL t) = get_filetype s.
Proof.
  unfold get_filetype, is_type, strcasecmp. by rewrite c_str_cut.
Qed.

(** X13. The format name that [get_codecs] assigns is itself a
    recognised token, and it names the same type, except for prores: its
    format name "mov" is the token of [FILETYPE_MOV].  A file cannot be
    told to be prores by its extension. *)
Theorem format_name_resolves (desttype : string) (format : ffmpegfs_format) :
  get_filetype desttype ≠ FILETYPE_UNKNOWN →
  get_filetype (m_format_name (get_codecs desttype format).2)
  = (if decide (get_filetype desttype = FILETYPE_PRORES) then FILETYPE_MOV
     else m_filetype (get_codecs desttype format).2).
Proof.
  unfold get_codecs. by destruct (get_filetype desttype).
Qed.

Lemma format_name_resolves_witness :
  get_filetype "ProRes" ≠ FILETYPE_UNKNOWN ∧
  get_filetype (m_format_name (get_codecs "ProRes" blank_format).2) = FILETYPE_MOV.
Proof.
  split; [discriminate |].
  apply (format_name_resolves "ProRes" blank_format). discriminate.
Defined.

(** ** Splitting the destination type list *)

Section splitting.
Implicit Types (s t : string) (sep a : ascii) (fs : list string).
Local Arguments String.append : simpl nomatch.

Lemma fields_nonempty sep s : fields sep s ≠ [].
Proof.
  destruct s as [|a s]; [done |]. simpl.
  destruct (Ascii.eqb a sep); [done |]. by destruct (fields sep s).
Qed.

Lemma fields_no_sep sep s : Forall (λ t, contains t sep = false) (fields sep s).
Proof.
  induction s as [|a s IH]; simpl; [by constructor |].
  destruct (Ascii.eqb a sep) eqn:Ea; [by constructor |].
  destruct (fields sep s) as [|f fs']; [constructor; [|done]; simpl; by rewrite Ea |].
  inversion IH as [|?? Hf Hfs]; subst. constructor; [|done].
  by rewrite contains_cons, Ea, Hf.
Qed.

Lemma join_cons2 sep t t' fs :
  join sep (t :: t' :: fs) = t +:+ String sep (join sep (t' :: fs)).
Proof. done. Qed.

Lemma join_fields sep s : join sep (fields sep s) = s.
Proof.
  induction s as [|a s IH]; [done |]. simpl.
  destruct (Ascii.eqb a sep) eqn:Ea.
  - apply Ascii.eqb_eq in Ea as ->.
    pose proof (fields_nonempty sep s) as Hne.
    destruct (fields sep s) as [|f fs']; [done |].
    rewrite join_cons2, IH. done.
  - pose proof (fields_nonempty sep s) as Hne.
    destruct (fields sep s) as [|f fs']; [done |].
    destruct fs' as [|f' fs''].
    + simpl in *. by rewrite IH.
    + rewrite join_cons2 in *. rewrite append_cons. by rewrite IH.
Qed.

Lemma removelast_cons2 (t t' : string) fs :
  removelast (t :: t' :: fs) = t :: removelast (t' :: fs).
Proof. done. Qed.

Lemma join_removelast sep t fs :
  last (t :: fs) = Some "" → fs ≠ [] →
  join sep (removelast (t :: fs)) +:+ String sep "" = join sep (t :: fs).
Proof.
  revert t. induction fs as [|t' fs IH]; intros t Hlast Hne; [done |].
  destruct fs as [|t'' fs].
  - simpl in Hlast. injection Hlast as ->. done.
  - rewrite removelast_cons2, join_cons2.
    specialize (IH t' Hlast ltac:(done)).
    rewrite removelast_cons2 in *. rewrite join_cons2.
    rewrite append_assoc. rewrite append_cons. by rewrite IH.
Qed.

Lemma Forall_removelast {A} (P : A → Prop) (l : list A) :
  Forall P l → Forall P (removelast l).
Proof.
  induction 1 as [|x l Hx Hl IH]; [done |]. simpl.
  destruct l; [done |]. by constructor.
Qed.

(** [split] gives the fields, or the fields without an empty last one. *)
Lemma split_cases s sep :
  split s sep = fields sep s ∨
  ∃ t fs, fields sep s = t :: fs ∧ fs ≠ [] ∧ last (t :: fs) = Some "" ∧
          split s sep = removelast (t :: fs).
Proof.
  unfold split. pose proof (fields_nonempty sep s) as Hne.
  destruct (fields sep s) as [|t fs]; [done |].
  destruct fs as [|t' fs]; [by left |].
  destruct (last (t :: t' :: fs)) as [[|a l]|] eqn:Hlast; [|by left..].
  right. by exists t, (t' :: fs).
Qed.

End splitting.

(** X14. [split] with the regex ",", as [get_filetype_from_list] calls
    it, never returns an empty vector (an empty input gives one empty
    token), and no token contains a comma. *)
Theorem split_tokens (input : string) :
  split input "," ≠ [] ∧ Forall (λ t, contains t "," = false) (split input ",").
Proof.
  pose proof (fields_no_sep "," input) as Hf.
  destruct (split_cases input ",") as [-> | (t & fs & Hfs & Hne & _ & ->)].
  - split; [apply fields_nonempty | done].
  - rewrite Hfs in Hf. split; [by destruct fs | by apply Forall_removelast].
Qed.

(** X15. The tokens of [split] with the regex ",", joined with commas,
    give the input back, up to one comma at the end of the input, which
    [split] drops: "a," and "a" have the same tokens. *)
Theorem split_join (input : string) :
  join "," (split input ",") = input ∨
  join "," (split input ",") +:+ "," = input.
Proof.
  destruct (split_cases input ",") as [-> | (t & fs & Hfs & Hne & Hlast & ->)].
  - left. apply join_fields.
  - right. rewrite join_removelast by done. rewrite <- Hfs. apply join_fields.
Qed.

(** ** What [mktree] returns and creates *)

Section mktree_outcome.
Implicit Types (w : world) (p dir d : string) (mode status : Z) (toks : list string).

Lemma strtok_slash_clean s : Forall clean_token (strtok_slash s).
Proof.
  induction s as [|a s IH]; [by constructor |]. simpl.
  unfold is_slash at 1. destruct (Ascii.eqb a "/") eqn:Ea; [exact IH |].
  assert (clean_token (String a "")) as Ha
    by (split; [done | by rewrite contains_cons, Ea]).
  destruct s as [|b s']; [by constructor |].
  destruct (is_slash b); [by constructor |].
  destruct (strtok_slash (String b s')) as [|t ts]; [by constructor |].
  inversion IH as [|?? [Ht1 Ht2] Hts]; subst. constructor; [|done].
  split; [done | by rewrite contains_cons, Ea, Ht2].
Qed.

Lemma dirname_child dir p :
  clean_dir dir → clean_token p →
  dirname (dir +:+ "/" +:+ p) = (if decide (dir = "") then "/" else dir).
Proof.
  intros Hdir [Hne Hp].
  assert (strip_trailing_slashes (dir +:+ "/" +:+ p) = dir +:+ "/" +:+ p) as Hs.
  { rewrite <- append_assoc. by apply strip_app_clean. }
  assert (rfind (dir +:+ "/" +:+ p) "/" = Some (String.length dir)) as Hr
    by (by apply rfind_last_occurrence).
  assert (take (String.length dir) (dir +:+ "/" +:+ p) = dir) as Ht
    by apply take_app_length.
  assert (strip_trailing_slashes dir = dir) as Hsd.
  { destruct Hdir as [-> | (x & q & -> & Hq1 & Hq2)]; [done |].
    by apply strip_app_clean. }
  unfold dirname. rewrite Hs.
  destruct (dir +:+ "/" +:+ p) as [|c rest] eqn:E.
  { by apply append_nonempty_r in E. }
  rewrite Hr, Ht, Hsd.
  destruct dir as [|c' dir']; done.
Qed.

Lemma length_child dir p :
  String.length (dir +:+ "/" +:+ p) = (String.length dir + 1 + String.length p)%nat.
Proof. rewrite !length_append. simpl. lia. Qed.

Lemma clean_token_length p : clean_token p → (1 ≤ String.length p)%nat.
Proof. intros [Hne _]. destruct p; [done | simpl; lia]. Qed.

Lemma mktree_loop_cons mode p toks dir status w :
  mktree_loop mode (p :: toks) dir status w
  = match (do d <- strcat PATH_MAX dir "/"; strcat PATH_MAX d p) with
    | Fault f => (w, Fault f)
    | Ret dir' =>
        let '(w1, newstat) := mkdir (set_errno 0 w) dir' mode in
        if (status =? 0)%Z && negb (newstat =? 0)%Z && negb (errno w1 =? EEXIST)%Z
        then (w1, Ret (-1)%Z)
        else mktree_loop mode toks dir' newstat w1
    end.
Proof. done. Qed.

Lemma strcat_child dir p :
  clean_token p → fits_buffer (dir +:+ "/" +:+ p) →
  (do d <- strcat PATH_MAX dir "/"; strcat PATH_MAX d p) = Ret (dir +:+ "/" +:+ p).
Proof.
  intros Hp%clean_token_length. unfold fits_buffer. rewrite length_child. intros Hfit.
  unfold strcat at 1. destruct (decide _) as [_|Hno].
  - simpl. unfold strcat. rewrite length_append. destruct (decide _) as [_|Hno].
    + by rewrite append_assoc.
    + simpl in Hno. lia.
  - simpl in Hno. lia.
Qed.

Lemma strcat_child_overflow dir p :
  ¬ fits_buffer (dir +:+ "/" +:+ p) →
  (do d <- strcat PATH_MAX dir "/"; strcat PATH_MAX d p) = Fault undefined_behaviour.
Proof.
  unfold fits_buffer. rewrite length_child. intros Hfit.
  unfold strcat at 1. destruct (decide _) as [_|_]; [|done].
  simpl. unfold strcat. rewrite length_append. destruct (decide _) as [Hyes|_]; [|done].
  simpl in Hyes. lia.
Qed.

(** One round of the loop when the directory name fits the buffer: the
    directory exists afterwards and the status tells whether it was
    there before. *)
Lemma mktree_loop_step mode p toks dir status w :
  clean_token p → clean_dir dir → (dir = "" ∨ dir ∈ dirs w) →
  fits_buffer (dir +:+ "/" +:+ p) →
  mktree_loop mode (p :: toks) dir status w
  = mktree_loop mode toks (dir +:+ "/" +:+ p)
      (if decide (dir +:+ "/" +:+ p ∈ dirs w) then (-1)%Z else 0%Z)
      (mk_world ({[dir +:+ "/" +:+ p]} ∪ dirs w)
                (if decide (dir +:+ "/" +:+ p ∈ dirs w) then EEXIST else 0%Z)).
Proof.
  intros Hp Hdir Hin Hfit.
  pose proof (clean_token_length p Hp) as Hlen.
  rewrite mktree_loop_cons, strcat_child by done.
  set (d := dir +:+ "/" +:+ p).
  destruct (decide (d ∈ dirs w)) as [Hd | Hd].
  - rewrite (mkdir_existing (set_errno 0 w) d mode) by done.
    simpl. rewrite andb_false_r.
    assert ({[d]} ∪ dirs w = dirs w) as ->
      by (by apply subseteq_union_1_L, singleton_subseteq_l). done.
  - assert (d ≠ "/") as Hroot.
    { intros Heq. apply (f_equal String.length) in Heq.
      unfold d in Heq. rewrite length_child in Heq. simpl in Heq. lia. }
    assert (dir_exists (set_errno 0 w) (dirname d) = true) as Hparent.
    { unfold d. rewrite dirname_child by done. unfold dir_exists. simpl.
      destruct (decide (dir = "")) as [-> | Hne]; [done |].
      destruct Hin as [-> | Hin]; [done |].
      by rewrite (bool_decide_eq_true_2 (dir ∈ dirs w)), orb_true_r. }
    unfold mkdir. rewrite Hparent.
    unfold dir_exists at 1. simpl.
    rewrite (bool_decide_eq_false_2 (d ∈ dirs w)) by done.
    rewrite (bool_decide_eq_false_2 (d = "/")) by done.
    simpl. by rewrite andb_false_r.
Qed.

(** One round of the loop when the directory name does not fit. *)
Lemma mktree_loop_overflow mode p toks dir status w :
  ¬ fits_buffer (dir +:+ "/" +:+ p) →
  mktree_loop mode (p :: toks) dir status w = (w, Fault undefined_behaviour).
Proof.
  intros Hfit. by rewrite mktree_loop_cons, strcat_child_overflow.
Qed.


Lemma clean_dir_child dir p : clean_token p → clean_dir (dir +:+ "/" +:+ p).
Proof.
  intros Hp. right. exists (dir +:+ "/"), p. by rewrite append_assoc.
Qed.


Lemma mktree_loop_overflows mode toks dir status w :
  Forall clean_token toks → clean_dir dir → (dir = "" ∨ dir ∈ dirs w) →
  ¬ Forall fits_buffer (mktree_dirs toks dir) →
  ∃ w', mktree_loop mode toks dir status w = (w', Fault undefined_behaviour).
Proof.
  revert dir status w.
  induction toks as [|p toks IH]; intros dir status w Htoks Hdir Hin Hfits.
  { destruct Hfits. constructor. }
  inversion Htoks as [|?? Hp Htoks']; subst.
  destruct (decide (String.length (dir +:+ "/" +:+ p) < PATH_MAX)%nat) as [Hfit | Hfit].
  - rewrite mktree_loop_step by done.
    apply IH; [done | by apply clean_dir_child
              | right; simpl; apply elem_of_union_l; by apply elem_of_singleton |].
    intros Hrest. apply Hfits. simpl. by constructor.
  - rewrite mktree_loop_overflow by done. by eexists.
Qed.

Lemma strtok_slash_only_slashes n : strtok_slash (replicate_char n "/") = [].
Proof. induction n as [|n IH]; [done |]. simpl. exact IH. Qed.

Lemma c_str_replicate n a : a ≠ NUL → c_str (replicate_char n a) = replicate_char n a.
Proof.
  intros Ha%Ascii.eqb_neq. induction n as [|n IH]; [done |].
  simpl. by rewrite Ha, IH.
Qed.

End mktree_outcome.



Lemma Exists_too_long_not_fits (ds : list string) :
  Exists (λ d, (PATH_MAX ≤ String.length d)%nat) ds → ¬ Forall fits_buffer ds.
Proof.
  induction 1 as [d ds Hd | d ds _ IH]; intros Hall;
    inversion Hall as [|?? Hfit Hrest]; subst.
  - unfold fits_buffer in Hfit. lia.
  - by apply IH.
Qed.

(** X17. [mktree] builds each directory name in [char dir[PATH_MAX]]
    without checking its length: as soon as one of the names it builds
    has [PATH_MAX] characters or more, the [strcat] writes past the
    buffer.  In the modelled file system nothing stops the loop before
    that, so the call has no defined result. *)
Theorem mktree_buffer_overflow (filename : string) (mode : Z) (w : world) :
  Exists (λ d, (PATH_MAX ≤ String.length d)%nat)
         (mktree_dirs (strtok_slash (c_str filename)) "") →
  ∃ w', mktree filename mode w = (w', Fault undefined_behaviour).
Proof.
  intros Hlong%Exists_too_long_not_fits. unfold mktree, new_strdup.
  apply mktree_loop_overflows; [apply strtok_slash_clean | by left | by left | done].
Qed.

Lemma mktree_buffer_overflow_witness :
  ∃ w', mktree (replicate_char 4095 "a") 493 empty_world
        = (w', Fault undefined_behaviour).
Proof.
  apply (mktree_buffer_overflow (replicate_char 4095 "a") 493 empty_world).
  assert (mktree_dirs (strtok_slash (c_str (replicate_char 4095 "a"))) ""
          = [String "/" (replicate_char 4095 "a")]) as ->
    by (vm_compute; reflexivity).
  apply Exists_cons_hd. apply Nat.leb_le. vm_compute. reflexivity.
Defined.

(** X18. On the empty path and on a path made of separators only,
    [mktree] calls [mkdir] not even once: it returns 0 and leaves the
    file system and [errno] as they were. *)
Theorem mktree_no_component (n : nat) (mode : Z) (w : world) :
  mktree (replicate_char n "/") mode w = (w, Ret 0%Z).
Proof.
  unfold mktree, new_strdup.
  rewrite c_str_replicate by done. by rewrite strtok_slash_only_slashes.
Qed.

(** ** More on mount point detection *)

(** X19. For a path that is its own [dirname] (as "/", "//" and "." are),
    [is_mount] compares the path with itself: it returns 1 whenever the
    path is a directory, whatever the devices are.  So [is_mount(".")]
    reports a mount point in every directory. *)
Theorem is_mount_own_parent
    (stat : string → option stat_t) (filename : string) (file_stat : stat_t) :
  dirname (c_str filename) = c_str filename →
  stat (c_str filename) = Some file_stat →
  Z.land (st_mode file_stat) S_IFDIR ≠ 0%Z →
  is_mount stat filename = 1%Z.
Proof.
  intros Hself Hstat Hdir%Z.eqb_neq.
  unfold is_mount, is_mount_try, new_strdup.
  by rewrite Hself, Hstat, Hdir, !Z.eqb_refl.
Qed.

Lemma is_mount_own_parent_witness :
  dirname (c_str ".") = c_str "." ∧
  is_mount (λ path, if decide (path = ".") then Some (mk_stat 2049 7 (S_IFDIR + 493))
                    else example_stat path) "." = 1%Z.
Proof.
  split; [reflexivity |].
  apply (is_mount_own_parent _ "." (mk_stat 2049 7 (S_IFDIR + 493)));
    [reflexivity | reflexivity | vm_compute; discriminate].
Defined.

(** ** Trimming *)

Section trimming.
Implicit Types (s t x pre suf : string) (a b : ascii).
Local Arguments String.append : simpl nomatch.

Lemma rtrim_cases s :
  rtrim s = "" ∨ ∃ x a, rtrim s = x +:+ String a "" ∧ isspace a = false.
Proof.
  induction s as [|b s IH]; [by left |]. simpl.
  destruct IH as [-> | (x & a & -> & Ha)].
  - destruct (isspace b) eqn:Eb; [by left |]. right. by exists "", b.
  - right. exists (String b x), a. split; [|done]. by destruct x.
Qed.

Lemma rtrim_snoc x a : isspace a = false → rtrim (x +:+ String a "") = x +:+ String a "".
Proof.
  intros Ha. induction x as [|b x IH].
  - simpl. by rewrite Ha.
  - rewrite append_cons. simpl. rewrite IH.
    destruct (x +:+ String a "") eqn:E; [|done].
    by apply append_nonempty_r in E.
Qed.

Lemma rtrim_split s : ∃ suf, s = rtrim s +:+ suf ∧ all_space suf = true.
Proof.
  induction s as [|b s (suf & Hs & Hsuf)]; [by exists "" |]. simpl.
  destruct (rtrim s) as [|c t] eqn:E.
  - destruct (isspace b) eqn:Eb.
    + exists (String b s). split; [done |]. simpl. rewrite Eb. simpl.
      by rewrite Hs.
    + exists suf. split; [|done]. by rewrite Hs at 1.
  - exists suf. split; [|done]. rewrite append_cons. by rewrite <- Hs.
Qed.

Lemma ltrim_split s : ∃ pre, s = pre +:+ ltrim s ∧ all_space pre = true.
Proof.
  induction s as [|b s (pre & Hs & Hpre)]; [by exists "" |]. simpl.
  destruct (isspace b) eqn:Eb.
  - exists (String b pre). rewrite append_cons, <- Hs. split; [done |].
    simpl. by rewrite Eb.
  - by exists "".
Qed.

Lemma ltrim_head s a t : ltrim s = String a t → isspace a = false.
Proof.
  induction s as [|b s IH]; [done |]. simpl.
  destruct (isspace b) eqn:Eb; [exact IH |]. by intros [= <- _].
Qed.

Lemma ltrim_idempotent s : ltrim (ltrim s) = ltrim s.
Proof.
  induction s as [|b s IH]; [done |]. simpl.
  destruct (isspace b) eqn:Eb; [exact IH |]. simpl. by rewrite Eb.
Qed.

Lemma ltrim_snoc x a :
  isspace a = false → ∃ x', ltrim (x +:+ String a "") = x' +:+ String a "".
Proof.
  intros Ha. induction x as [|b x IH].
  - exists "". simpl. by rewrite Ha.
  - rewrite append_cons. simpl. destruct (isspace b); [exact IH |].
    by exists (String b x).
Qed.

(** The result of [trim] is empty or ends in a character that is not
    white space. *)
Lemma trim_cases s :
  trim s = "" ∨ ∃ x a, trim s = x +:+ String a "" ∧ isspace a = false.
Proof.
  unfold trim. destruct (rtrim_cases s) as [-> | (x & a & -> & Ha)]; [by left |].
  right. destruct (ltrim_snoc x a Ha) as [x' ->]. by exists x', a.
Qed.

Lemma snoc_inj x a t b : x +:+ String a "" = t +:+ String b "" → a = b.
Proof.
  intros H. apply (f_equal back) in H. rewrite !back_push_back in H.
  by injection H.
Qed.

End trimming.

(** X21. The result of [trim] neither starts nor ends with white space. *)
Theorem trim_no_outer_space (s : string) :
  (∀ a t, trim s = String a t → isspace a = false) ∧
  (∀ x a, trim s = x +:+ String a "" → isspace a = false).
Proof.
  split.
  - intros a t. apply ltrim_head.
  - intros x a Hx. destruct (trim_cases s) as [He | (y & b & Hy & Hb)].
    + rewrite He in Hx. symmetry in Hx. by apply append_nonempty_r in Hx.
    + rewrite Hy in Hx. by apply snoc_inj in Hx as ->.
Qed.

Lemma trim_no_outer_space_witness :
  trim "  a b  " = "a b" ∧ isspace "a" = false ∧ isspace "b" = false.
Proof.
  split; [reflexivity |]. split.
  - apply (proj1 (trim_no_outer_space "  a b  ") "a"%char " b"). reflexivity.
  - apply (proj2 (trim_no_outer_space "  a b  ") "a " "b"%char). reflexivity.
Defined.

(** X22. [trim] only takes white space away, and only at the ends: the
    string is some white space, the result of [trim], and some white
    space again.  What stands between the first and the last character
    that is not white space is kept as it is. *)
Theorem trim_split (s : string) :
  ∃ pre suf, s = pre +:+ trim s +:+ suf ∧ all_space pre = true ∧ all_space suf = true.
Proof.
  destruct (rtrim_split s) as (suf & Hs & Hsuf).
  destruct (ltrim_split (rtrim s)) as (pre & Hr & Hpre).
  exists pre, suf. split; [|done]. unfold trim.
  rewrite <- append_assoc, <- Hr. exact Hs.
Qed.

(** X23. Trimming twice is trimming once; and a string of white space
    only is trimmed to the empty string. *)
Theorem trim_idempotent (s : string) :
  trim (trim s) = trim s ∧ (all_space s = true → trim s = "").
Proof.
  split.
  - destruct (trim_cases s) as [-> | (x & a & Hx & Ha)]; [done |].
    unfold trim at 1. rewrite Hx, rtrim_snoc by done. rewrite <- Hx.
    apply ltrim_idempotent.
  - intros Hs. unfold trim.
    assert (rtrim s = "") as ->; [|done].
    induction s as [|b s IH]; [done |]. simpl in *.
    apply andb_true_iff in Hs as [Hb Hs]. by rewrite (IH Hs), Hb.
Qed.

Lemma trim_idempotent_witness :
  all_space "   " = true ∧ trim "   " = "".
Proof.
  split; [reflexivity |].
  apply (proj2 (trim_idempotent "   ")). reflexivity.
Defined.

(** ** Replacing all occurrences *)

Section replacing.
Import StdStringEdit.
Implicit Types (s t str from to pre suf front rest : string) (a c : ascii) (n i pos fuel : nat).
Local Arguments String.append : simpl nomatch.

Lemma length_drop n s : String.length (drop n s) = (String.length s - n)%nat.
Proof.
  revert s; induction n as [|n IH]; intros [|a s]; simpl; try done; lia.
Qed.

Lemma length_take n s : String.length (take n s) = (n `min` String.length s)%nat.
Proof.
  revert s; induction n as [|n IH]; intros [|a s]; simpl; try done.
  by rewrite IH.
Qed.

Lemma drop_app_length s t : drop (String.length s) (s +:+ t) = t.
Proof. induction s as [|a s IH]; [done |]. exact IH. Qed.

Lemma starts_with_length s from :
  starts_with s from = true → (String.length from ≤ String.length s)%nat.
Proof.
  revert s; induction from as [|b from IH]; intros [|a s]; simpl; try done; try lia.
  intros [_ H]%andb_true_iff. apply IH in H. lia.
Qed.

Lemma find_first_bound s from i :
  find_first s from = Some i → (i + String.length from ≤ String.length s)%nat.
Proof.
  revert i; induction s as [|a s IH]; intros i.
  - destruct from; simpl; [intros [= <-]; simpl; lia | done].
  - cbn [find_first]. destruct (starts_with (String a s) from) eqn:E.
    + intros [= <-]. by apply starts_with_length in E.
    + destruct (find_first s from) as [j|]; [|done].
      intros [= <-]. specialize (IH j eq_refl). simpl. lia.
Qed.

Lemma find_bound str from pos p :
  find str from pos = Some p →
  (pos ≤ p ∧ p + String.length from ≤ String.length str)%nat.
Proof.
  unfold find, size. destruct (decide _) as [Hpos|]; [|done].
  destruct (find_first (drop pos str) from) as [i|] eqn:E; [|done].
  intros [= <-]. apply find_first_bound in E. rewrite length_drop in E. lia.
Qed.

Lemma replace_all_loop_S fuel str from to start_pos :
  replace_all_loop (S fuel) str from to start_pos
  = match find str from start_pos with
    | None => Some (Ret str)
    | Some p =>
        match replace str p (String.length from) to with
        | Fault f => Some (Fault f)
        | Ret str' => replace_all_loop fuel str' from to (p + String.length to)
        end
    end.
Proof. done. Qed.

Lemma length_replace str p len to :
  (p + len ≤ String.length str)%nat →
  replace str p len to = Ret (take p str +:+ to +:+ drop (p + len) str) ∧
  String.length (take p str +:+ to +:+ drop (p + len) str)
  = (p + String.length to + (String.length str - p - len))%nat.
Proof.
  intros Hp. unfold replace, size. destruct (decide _) as [?|_]; [lia |].
  split; [done |]. rewrite !length_append, length_take, length_drop. lia.
Qed.

Lemma replace_all_loop_terminates from to n :
  from ≠ "" →
  ∀ str pos, (String.length str - pos ≤ n)%nat →
  ∃ r, ∀ fuel, (n < fuel)%nat → replace_all_loop fuel str from to pos = Some (Ret r).
Proof.
  intros Hfrom.
  assert (1 ≤ String.length from)%nat as Hlen by (destruct from; [done | simpl; lia]).
  induction n as [|n IH]; intros str pos Hn.
  - exists str. intros [|fuel] Hfuel; [lia |]. rewrite replace_all_loop_S.
    destruct (find str from pos) as [p|] eqn:Hfind; [|done].
    apply find_bound in Hfind. lia.
  - destruct (find str from pos) as [p|] eqn:Hfind.
    + pose proof (find_bound _ _ _ _ Hfind) as [Hp1 Hp2].
      destruct (length_replace str p (String.length from) to Hp2) as [Hrep Hl].
      destruct (IH (take p str +:+ to +:+ drop (p + String.length from) str)
                  (p + String.length to)%nat) as [r Hr]; [lia |].
      exists r. intros [|fuel] Hfuel; [lia |].
      rewrite replace_all_loop_S, Hfind, Hrep. apply Hr. lia.
    + exists str. intros [|fuel] Hfuel; [lia |].
      by rewrite replace_all_loop_S, Hfind.
Qed.

Lemma find_empty str pos :
  (pos ≤ String.length str)%nat → find str "" pos = Some pos.
Proof.
  intros Hpos. unfold find, size. destruct (decide _) as [_|?]; [|lia].
  destruct (drop pos str); simpl; f_equal; lia.
Qed.

Lemma replace_all_loop_empty fuel str pos :
  (pos ≤ String.length str)%nat → replace_all_loop fuel str "" "" pos = None.
Proof.
  revert pos. induction fuel as [|fuel IH]; intros pos Hpos; [done |].
  rewrite replace_all_loop_S, find_empty by done.
  unfold replace, size. destruct (decide _) as [?|_]; [lia |].
  simpl. rewrite !Nat.add_0_r.
  change ("" +:+ drop pos str) with (drop pos str). rewrite take_drop.
  by apply IH.
Qed.

Lemma find_first_char rest c :
  match find_first rest (String c "") with
  | None => contains rest c = false
  | Some i => ∃ pre suf, rest = pre +:+ String c suf ∧ contains pre c = false ∧
                         String.length pre = i
  end.
Proof.
  induction rest as [|a rest IH]; [done |].
  cbn [find_first starts_with]. destruct (Ascii.eqb a c) eqn:Ea.
  - apply Ascii.eqb_eq in Ea as ->.
    assert (starts_with rest "" = true) as -> by (by destruct rest).
    simpl. by exists "", rest.
  - simpl. destruct (find_first rest (String c "")) as [i|]; simpl.
    + destruct IH as (pre & suf & -> & Hpre & <-).
      exists (String a pre), suf. split; [done |].
      split; [by rewrite contains_cons, Ea | done].
    + by rewrite Ea.
Qed.

Lemma substitute_absent c to s : contains s c = false → substitute c to s = s.
Proof.
  induction s as [|a s IH]; [done |]. rewrite contains_cons.
  intros [Ha Hs]%orb_false_iff. simpl. by rewrite Ha, IH.
Qed.

Lemma substitute_app c to pre s :
  contains pre c = false → substitute c to (pre +:+ s) = pre +:+ substitute c to s.
Proof.
  induction pre as [|a pre IH]; [done |]. rewrite contains_cons.
  intros [Ha Hs]%orb_false_iff. rewrite !append_cons. simpl. by rewrite Ha, IH.
Qed.

Lemma replace_all_loop_char c to n :
  ∀ front rest fuel, (String.length rest ≤ n)%nat → (n < fuel)%nat →
  replace_all_loop fuel (front +:+ rest) (String c "") to (String.length front)
  = Some (Ret (front +:+ substitute c to rest)).
Proof.
  induction n as [|n IH]; intros front rest [|fuel] Hn Hfuel; try lia.
  - destruct rest; [|simpl in Hn; lia].
    rewrite replace_all_loop_S. unfold find, size.
    destruct (decide _) as [_|Hno]; [|rewrite length_append in Hno; lia].
    by rewrite drop_app_length.
  - rewrite replace_all_loop_S. unfold find, size.
    destruct (decide _) as [_|Hno]; [|rewrite length_append in Hno; lia].
    rewrite drop_app_length.
    pose proof (find_first_char rest c) as Hfind.
    destruct (find_first rest (String c "")) as [i|]; simpl.
    + destruct Hfind as (pre & suf & -> & Hpre & <-).
      unfold replace, size.
      destruct (decide _) as [Hno|_]; [rewrite !length_append in Hno; lia |].
      rewrite <- (append_assoc front pre (String c suf)).
      rewrite <- (length_append front pre).
      rewrite take_app_length.
      replace (String.length (front +:+ pre) + String.length (String c ""))%nat
        with (String.length (front +:+ pre) + 1)%nat by done.
      rewrite drop_app_length_plus. simpl drop.
      rewrite <- (length_append (front +:+ pre) to).
      rewrite <- (append_assoc (front +:+ pre) to suf).
      rewrite IH; [|rewrite length_append in Hn; simpl in Hn; lia | lia].
      rewrite substitute_app by done. simpl. rewrite Ascii.eqb_refl.
      by rewrite !append_assoc.
    + by rewrite substitute_absent.
Qed.

End replacing.

(** X24. [replace_all] comes to an end whenever the pattern [from] is
    not empty: the loop makes at most one round per character of the
    string, and it never calls [replace] out of range. *)
Theorem replace_all_terminates (str from to : string) :
  from ≠ "" →
  ∃ r, ∀ fuel, (String.length str < fuel)%nat →
       replace_all fuel str from to = Some (Ret r).
Proof.
  intros Hfrom. unfold replace_all.
  apply (replace_all_loop_terminates from to (String.length str) Hfrom). lia.
Qed.

Lemma replace_all_terminates_witness :
  "ab" ≠ "" ∧ replace_all 5 "aabb" "ab" "" = Some (Ret "ab").
Proof.
  split; [discriminate |].
  destruct (replace_all_terminates "aabb" "ab" "") as [r Hr]; [discriminate |].
  rewrite (Hr 5%nat) by (simpl; lia).
  specialize (Hr 9%nat ltac:(simpl; lia)). vm_compute in Hr.
  by injection Hr as <-.
Defined.

(** X25. With an empty pattern and an empty replacement [replace_all]
    never returns: [find] matches the empty pattern at the position where
    the loop stands, nothing is replaced and the position does not move,
    so the loop is still running after any number of rounds. *)
Theorem replace_all_empty_pattern_loops (fuel : nat) (str : string) :
  replace_all fuel str "" "" = None.
Proof. unfold replace_all. apply replace_all_loop_empty. lia. Qed.

(** X26. For a pattern of one character, [replace_all] replaces every
    occurrence of the character by [to] and keeps the other characters,
    also when [to] contains the character itself: replaced text is not
    scanned again.  This is how [expand_path] puts a backslash before
    every space. *)
Theorem replace_all_char (str : string) (c : ascii) (to : string) (fuel : nat) :
  (String.length str < fuel)%nat →
  replace_all fuel str (String c "") to = Some (Ret (substitute c to str)).
Proof.
  intros Hfuel. unfold replace_all.
  apply (replace_all_loop_char c to (String.length str) "" str fuel); [done | lia].
Qed.

Lemma replace_all_char_witness :
  (String.length "my music/a b.flac" < 18)%nat ∧
  replace_all 18 "my music/a b.flac" " " "\ " = Some (Ret "my\ music/a\ b.flac").
Proof.
  split; [simpl; lia |].
  apply (replace_all_char "my music/a b.flac" " " "\ " 18). simpl. lia.
Defined.

(** ** Formatting a time span *)

Example format_time_examples :
  map format_time [0; 59; 3600; 694861; -61; 2147644799]%Z
  = [Ret "unlimited"; Ret "59s "; Ret "1h "; Ret "1w 1d 1h 1m 1s "; Ret "-1m -1s ";
     Ret "3550w 6d 23h 59m 59s "].
Proof. vm_compute. reflexivity. Qed.

Section time_spans.
Local Open Scope Z_scope.
Implicit Types (value k z : Z).

Lemma to_int_id z : INT_MIN ≤ z ≤ INT_MAX → to_int z = z.
Proof.
  unfold to_int, INT_MIN, INT_MAX. intros Hz.
  rewrite Z.mod_small by lia. lia.
Qed.

(** One stage of [format_time] on a value that is not negative: the
    quotient is an [int], the product does not overflow and the
    subtraction leaves the remainder. *)
Lemma format_time_stage value k :
  0 ≤ value ≤ INT64_MAX → 0 < k → value / k * k ≤ INT_MAX →
  to_int (value ÷ k) = value / k ∧
  int_mul (value / k) k = Ret (value / k * k) ∧
  time_sub value (value / k * k) = Ret (value mod k).
Proof.
  intros Hv Hk Hp.
  assert (0 ≤ value / k) as Hq by (apply Z.div_pos; lia).
  assert (value / k ≤ value / k * k) as Hqk by nia.
  pose proof (Z.mod_pos_bound value k Hk) as Hm.
  pose proof (Z.div_mod value k ltac:(lia)) as Hdm.
  split; [|split].
  - rewrite Z.quot_div_nonneg by lia. apply to_int_id. unfold INT_MIN. lia.
  - unfold int_mul. rewrite (proj2 (Z.leb_le _ _)) by (unfold INT_MIN; lia).
    by rewrite (proj2 (Z.leb_le _ _)) by lia.
  - unfold time_sub.
    replace (value - value / k * k) with (value mod k) by lia.
    rewrite (proj2 (Z.leb_le _ _)) by (unfold INT64_MIN; lia).
    by rewrite (proj2 (Z.leb_le _ _)) by (unfold INT64_MAX in *; lia).
Qed.

End time_spans.

(** X27. For a time span of at least one second and less than 3551
    weeks, [format_time] runs without any overflow and prints the parts
    of the span's decomposition into weeks, days (below 7), hours (below
    24), minutes and seconds (below 60), leaving out the parts that are
    0. *)
Theorem format_time_decomposition (value : Z) :
  (0 < value < 2147644800)%Z →
  ∃ weeks days hours mins secs : Z,
    (value = 604800 * weeks + 86400 * days + 3600 * hours + 60 * mins + secs)%Z ∧
    (0 ≤ weeks ≤ 3550)%Z ∧ (0 ≤ days < 7)%Z ∧ (0 ≤ hours < 24)%Z ∧
    (0 ≤ mins < 60)%Z ∧ (0 ≤ secs < 60)%Z ∧
    format_time value = Ret (format_time_buffer weeks days hours mins secs).
Proof.
  intros Hv. unfold format_time.
  change (60 * 60 * 24 * 7)%Z with 604800%Z.
  change (60 * 60 * 24)%Z with 86400%Z. change (60 * 60)%Z with 3600%Z.
  rewrite (proj2 (Z.eqb_neq value 0)) by lia.
  rewrite (proj2 (Z.eqb_neq value AV_NOPTS_VALUE)) by (unfold AV_NOPTS_VALUE; lia).
  set (v1 := (value mod 604800)%Z). set (v2 := (v1 mod 86400)%Z).
  set (v3 := (v2 mod 3600)%Z). set (v4 := (v3 mod 60)%Z).
  assert (0 ≤ v1 < 604800)%Z as H1 by (apply Z.mod_pos_bound; lia).
  assert (0 ≤ v2 < 86400)%Z as H2 by (apply Z.mod_pos_bound; lia).
  assert (0 ≤ v3 < 3600)%Z as H3 by (apply Z.mod_pos_bound; lia).
  assert (0 ≤ v4 < 60)%Z as H4 by (apply Z.mod_pos_bound; lia).
  pose proof (Z.div_mod value 604800 ltac:(lia)) as E1. fold v1 in E1.
  pose proof (Z.div_mod v1 86400 ltac:(lia)) as E2. fold v2 in E2.
  pose proof (Z.div_mod v2 3600 ltac:(lia)) as E3. fold v3 in E3.
  pose proof (Z.div_mod v3 60 ltac:(lia)) as E4. fold v4 in E4.
  destruct (format_time_stage value 604800) as (-> & -> & Hs1);
    [unfold INT64_MAX; lia | lia | unfold INT_MAX; lia |].
  simpl res_bind. rewrite Hs1. simpl res_bind. fold v1.
  destruct (format_time_stage v1 86400) as (-> & -> & Hs2);
    [unfold INT64_MAX; lia | lia | unfold INT_MAX; lia |].
  simpl res_bind. rewrite Hs2. simpl res_bind. fold v2.
  destruct (format_time_stage v2 3600) as (-> & -> & Hs3);
    [unfold INT64_MAX; lia | lia | unfold INT_MAX; lia |].
  simpl res_bind. rewrite Hs3. simpl res_bind. fold v3.
  destruct (format_time_stage v3 60) as (-> & -> & Hs4);
    [unfold INT64_MAX; lia | lia | unfold INT_MAX; lia |].
  simpl res_bind. rewrite Hs4. simpl res_bind. fold v4.
  rewrite (to_int_id v4) by (unfold INT_MIN, INT_MAX; lia).
  exists (value / 604800)%Z, (v1 / 86400)%Z, (v2 / 3600)%Z, (v3 / 60)%Z, v4.
  repeat split; try done; lia.
Qed.

Lemma format_time_decomposition_witness :
  (0 < 694861 < 2147644800)%Z ∧
  ∃ weeks days hours mins secs : Z,
    (694861 = 604800 * weeks + 86400 * days + 3600 * hours + 60 * mins + secs)%Z ∧
    (0 ≤ weeks ≤ 3550)%Z ∧ (0 ≤ days < 7)%Z ∧ (0 ≤ hours < 24)%Z ∧
    (0 ≤ mins < 60)%Z ∧ (0 ≤ secs < 60)%Z ∧
    format_time 694861 = Ret (format_time_buffer weeks days hours mins secs).
Proof.
  split; [lia |]. apply (format_time_decomposition 694861). lia.
Defined.

(** X28. From 3551 weeks on (2147644800 seconds, some 68 years), the
    product [weeks * (60*60*24*7)] that [format_time] computes in [int]
    overflows: the call has undefined behaviour. *)
Theorem format_time_overflow (value : Z) :
  (2147644800 ≤ value < 1298798110310400)%Z →
  format_time value = Fault undefined_behaviour.
Proof.
  intros Hv. unfold format_time.
  change (60 * 60 * 24 * 7)%Z with 604800%Z.
  rewrite (proj2 (Z.eqb_neq value 0)) by lia.
  rewrite (proj2 (Z.eqb_neq value AV_NOPTS_VALUE)) by (unfold AV_NOPTS_VALUE; lia).
  rewrite Z.quot_div_nonneg by lia.
  pose proof (Z.div_mod value 604800 ltac:(lia)) as E.
  pose proof (Z.mod_pos_bound value 604800 ltac:(lia)) as Hm.
  rewrite to_int_id by (unfold INT_MIN, INT_MAX; lia).
  unfold int_mul.
  rewrite (proj2 (Z.leb_gt (value / 604800 * 604800) INT_MAX))
    by (unfold INT_MAX; lia).
  by rewrite andb_false_r.
Qed.

Lemma format_time_overflow_witness :
  (2147644800 ≤ 2147644800 < 1298798110310400)%Z ∧
  format_time 2147644800 = Fault undefined_behaviour.
Proof.
  split; [lia |]. apply (format_time_overflow 2147644800). lia.
Defined.

(** ** Comparing without case *)

Lemma libc_strcasecmp_swap (s t : string) :
  Libc.strcasecmp s t = (- Libc.strcasecmp t s)%Z.
Proof.
  revert t. induction s as [|a s IH]; intros [|b t]; simpl; try lia.
  rewrite (Z.eqb_sym (tolower b)).
  destruct (tolower a =? tolower b)%Z; [apply IH | lia].
Qed.

(** X20. [strcasecmp] on two [std::string]s is 0 on equal arguments,
    changes its sign when the arguments are swapped, and is 0 exactly
    when the two C strings (what precedes the first NUL) are equal once
    every letter is lowered. *)
Theorem strcasecmp_comparison (s1 s2 : string) :
  strcasecmp s1 s1 = 0%Z ∧
  strcasecmp s1 s2 = (- strcasecmp s2 s1)%Z ∧
  (strcasecmp s1 s2 = 0%Z ↔ lowered (c_str s1) = lowered (c_str s2)).
Proof.
  split; [by apply strcasecmp_zero |].
  split; [apply libc_strcasecmp_swap | apply strcasecmp_zero].
Qed.

Lemma strcasecmp_comparison_witness :
  lowered (c_str "OGG") = lowered (c_str "ogg") ∧ strcasecmp "OGG" "ogg" = 0%Z.
Proof.
  split; [reflexivity |].
  apply (proj2 (proj2 (strcasecmp_comparison "OGG" "ogg"))). reflexivity.
Defined.
